(** * RaceLock: the in-memory lock registry of [index.js]

    A shallow embedding of the [GlobalLock] module (the closure over the
    [locks] map) together with the part of the JavaScript host it talks to:
    the timer queue ([setTimeout], [setInterval], [clearTimeout]), the clock
    ([Date.now]), the console and the promises returned by the two
    asynchronous entry points.

    The host is single threaded: a call into the module runs to completion,
    and a timer callback runs as one turn of the event loop.  Synchronous
    code takes no time in this model; time only moves between turns. *)

From stdpp Require Import gmap strings list fin_maps.
From Stdlib Require Import ZArith Lia.

Open Scope Z_scope.

Module GlobalLock.

(** ** Data *)

(** Timer handles.  Node returns a [Timeout] object and a browser a positive
    integer; both are truthy, which is all [end] and [clearAllLocks] ask of
    them.  A field that is [null] is [None]. *)
Definition timer_id := nat.

(** The caller's metadata object, never inspected by the module. *)
Definition Meta := list (string * string).

(** The object stored in [locks] by [start]. *)
Record lockInfo := LockInfo {
  timestamp : Z;
  meta : Meta;
  ownerId : option string;
  timeoutId : option timer_id;
}.

(** What [getLockInfo] hands out: the record without [timeoutId]. *)
Record lockView := LockView {
  v_timestamp : Z;
  v_meta : Meta;
  v_ownerId : option string;
}.

(** Console output of the module, one constructor per message. *)
Inductive diag :=
  | AutoReleased (key : string)
  | NonOwner (key : string) (by_owner current : option string)
  | AttemptFailed (key : string) (attempt : Z) (delay : Z)
  | RetryExhausted (key : string) (attempts : Z)
  | AllCleared.

(** The local variables of a suspended [retryStart] call. *)
Record retry_frame := RetryFrame {
  rf_key : string;
  rf_attempts : Z;
  rf_initialDelay : Z;
  rf_timeout : Z;
  rf_meta : Meta;
  rf_ownerId : option string;
  rf_i : Z;
  rf_promise : nat;
}.

(** The closures the module hands to the timer queue. *)
Inductive callback :=
  | Expire (key : string)
  | RetryResume (f : retry_frame)
  | Poll (key : string) (promise : nat).

Record timer := Timer {
  due : Z;
  repeat : option Z;
  action : callback;
}.

(** Values a promise of the module resolves to. *)
Inductive pvalue :=
  | PBool (b : bool)
  | PUnit.

Record world := World {
  locks : gmap string lockInfo;
  timers : gmap timer_id timer;
  nextTimer : timer_id;
  now : Z;
  console : list (Z * diag);
  settled : gmap nat pvalue;
  nextPromise : nat;
}.

Definition init : world :=
  {| locks := ∅; timers := ∅; nextTimer := 1%nat; now := 0;
     console := []; settled := ∅; nextPromise := 0%nat |}.

Definition set_locks (f : gmap string lockInfo → gmap string lockInfo) (w : world) : world :=
  {| locks := f (locks w); timers := timers w; nextTimer := nextTimer w;
     now := now w; console := console w; settled := settled w;
     nextPromise := nextPromise w |}.

Definition set_timers (f : gmap timer_id timer → gmap timer_id timer) (w : world) : world :=
  {| locks := locks w; timers := f (timers w); nextTimer := nextTimer w;
     now := now w; console := console w; settled := settled w;
     nextPromise := nextPromise w |}.

Definition set_now (t : Z) (w : world) : world :=
  {| locks := locks w; timers := timers w; nextTimer := nextTimer w;
     now := t; console := console w; settled := settled w;
     nextPromise := nextPromise w |}.

(** ** The host *)

(** [console.log] and [console.warn]; each line is stamped with the clock. *)
Definition emit (d : diag) (w : world) : world :=
  {| locks := locks w; timers := timers w; nextTimer := nextTimer w;
     now := now w; console := console w ++ [(now w, d)]; settled := settled w;
     nextPromise := nextPromise w |}.

(** Node coerces a delay below 1 or above 2^31-1 to 1. *)
Definition TIMEOUT_MAX : Z := 2147483647.

Definition host_delay (d : Z) : Z :=
  if (d <? 1) || (TIMEOUT_MAX <? d) then 1 else d.

Definition add_timer (rep : bool) (cb : callback) (delay : Z) (w : world) : timer_id * world :=
  let t := nextTimer w in
  let d := host_delay delay in
  (t, {| locks := locks w;
         timers := <[t := {| due := now w + d;
                             repeat := if rep then Some d else None;
                             action := cb |}]> (timers w);
         nextTimer := S t;
         now := now w; console := console w; settled := settled w;
         nextPromise := nextPromise w |}).

Definition setTimeout : callback → Z → world → timer_id * world := add_timer false.
Definition setInterval : callback → Z → world → timer_id * world := add_timer true.

Definition clearTimeout (t : timer_id) (w : world) : world :=
  set_timers (delete t) w.

Definition clearInterval : timer_id → world → world := clearTimeout.

Definition new_promise (w : world) : nat * world :=
  (nextPromise w,
   {| locks := locks w; timers := timers w; nextTimer := nextTimer w;
      now := now w; console := console w; settled := settled w;
      nextPromise := S (nextPromise w) |}).

(** Resolving a settled promise again has no effect. *)
Definition resolve (p : nat) (v : pvalue) (w : world) : world :=
  {| locks := locks w; timers := timers w; nextTimer := nextTimer w;
     now := now w; console := console w;
     settled := match settled w !! p with
                | Some _ => settled w
                | None => <[p := v]> (settled w)
                end;
     nextPromise := nextPromise w |}.

(** ** The module *)

(** [start(key, timeout = 0, meta = {}, ownerId = null)].  An argument left
    out is [None]; for [ownerId] that is also the value [null]. *)
Definition start (key : string) (timeout : option Z) (meta : option Meta)
    (ownerId : option string) (w : world) : bool * world :=
  let timeout := default 0 timeout in
  let meta := default [] meta in
  match locks w !! key with
  | Some _ => (false, w)
  | None =>
      let '(tid, w) :=
        if 0 <? timeout
        then let '(t, w) := setTimeout (Expire key) timeout w in (Some t, w)
        else (None, w) in
      let lockInfo :=
        {| timestamp := now w; meta := meta; ownerId := ownerId; timeoutId := tid |} in
      (true, set_locks (insert key lockInfo) w)
  end.

(** [end(key, ownerId = null)]; [end] is a keyword here, hence the
    underscore. *)
Definition end_ (key : string) (ownerId : option string) (w : world) : world :=
  match locks w !! key with
  | None => w
  | Some lock =>
      if bool_decide (ownerId ≠ None) && bool_decide (lock.(GlobalLock.ownerId) ≠ ownerId)
      then emit (NonOwner key ownerId lock.(GlobalLock.ownerId)) w
      else
        let w := match lock.(timeoutId) with
                 | Some t => clearTimeout t w
                 | None => w
                 end in
        set_locks (delete key) w
  end.

Definition isLocked (key : string) (w : world) : bool :=
  bool_decide (is_Some (locks w !! key)).

Definition getLockInfo (key : string) (w : world) : option lockView :=
  match locks w !! key with
  | Some lock =>
      Some {| v_timestamp := timestamp lock; v_meta := meta lock;
              v_ownerId := lock.(GlobalLock.ownerId) |}
  | None => None
  end.

(** [waitForUnlock(key, checkInterval = 100)]: the promise executor. *)
Definition waitForUnlock (key : string) (checkInterval : option Z) (w : world) : nat * world :=
  let checkInterval := default 100 checkInterval in
  let '(p, w) := new_promise w in
  if negb (isLocked key w) then (p, resolve p PUnit w)
  else (p, snd (setInterval (Poll key p) checkInterval w)).

(** The interval callback of [waitForUnlock]; [interval] is its own handle. *)
Definition poll (key : string) (p : nat) (interval : timer_id) (w : world) : world :=
  if negb (isLocked key w) then resolve p PUnit (clearInterval interval w)
  else w.

Definition forceUnlock (key : string) (w : world) : world :=
  end_ key None w.

(** One pass through the body of the [for] loop of [retryStart], from the
    loop test up to the [await] (or to the [return]).  Numbers are integers
    here: [delay] is the value of the source's [initialDelay * Math.pow(2, i)]
    as long as that product is an integer a double holds exactly; the
    theorems that speak of the delay of an arbitrary frame bound it by the
    largest delay the host takes. *)
Definition retry_loop (f : retry_frame) (w : world) : world :=
  if rf_i f <? rf_attempts f then
    let '(ok, w) := start (rf_key f) (Some (rf_timeout f)) (Some (rf_meta f)) (rf_ownerId f) w in
    if ok then resolve (rf_promise f) (PBool true) w
    else
      let delay := rf_initialDelay f * 2 ^ rf_i f in
      let w := emit (AttemptFailed (rf_key f) (rf_i f + 1) delay) w in
      snd (setTimeout (RetryResume f) delay w)
  else
    resolve (rf_promise f) (PBool false)
      (emit (RetryExhausted (rf_key f) (rf_attempts f)) w).

(** What runs when the awaited sleep is over: [i++], then the loop test. *)
Definition retry_resume (f : retry_frame) (w : world) : world :=
  retry_loop
    {| rf_key := rf_key f; rf_attempts := rf_attempts f;
       rf_initialDelay := rf_initialDelay f; rf_timeout := rf_timeout f;
       rf_meta := rf_meta f; rf_ownerId := rf_ownerId f;
       rf_i := rf_i f + 1; rf_promise := rf_promise f |} w.

(** [retryStart(key, attempts = 5, initialDelay = 100, timeout = 5000,
    meta = {}, ownerId = null)]; returns its promise. *)
Definition retryStart (key : string) (attempts initialDelay timeout : option Z)
    (meta : option Meta) (ownerId : option string) (w : world) : nat * world :=
  let attempts := default 5 attempts in
  let initialDelay := default 100 initialDelay in
  let timeout := default 5000 timeout in
  let meta := default [] meta in
  let '(p, w) := new_promise w in
  (p, retry_loop
        {| rf_key := key; rf_attempts := attempts; rf_initialDelay := initialDelay;
           rf_timeout := timeout; rf_meta := meta; rf_ownerId := ownerId;
           rf_i := 0; rf_promise := p |} w).

Definition getLockCount (w : world) : nat := size (locks w).

(** [getAllLockedKeys]: the keys of [locks].  The source returns them in
    insertion order; the registry here keeps no order, so this list is the
    array of the source up to a permutation, and only its members, its
    length and the absence of repetitions are spoken of below. *)
Definition getAllLockedKeys (w : world) : list string :=
  (map_to_list (locks w)).*1.

(** [clearAllLocks]: the [forEach] that clears the timers, then
    [locks.clear()]. *)
Definition clear_lock_timer (_ : string) (lock : lockInfo) (w : world) : world :=
  match lock.(timeoutId) with
  | Some t => clearTimeout t w
  | None => w
  end.

Definition clearAllLocks (w : world) : world :=
  let w := map_fold clear_lock_timer w (locks w) in
  emit AllCleared (set_locks (λ _, ∅) w).

(** ** The event loop *)

Definition run_callback (t : timer_id) (cb : callback) (w : world) : world :=
  match cb with
  | Expire key => emit (AutoReleased key) (set_locks (delete key) w)
  | RetryResume f => retry_resume f w
  | Poll key p => poll key p t w
  end.

(** Timers fire in order of their due time, and in order of creation among
    those due together. *)
Definition earlier (a b : timer_id * timer) : bool :=
  (due a.2 <? due b.2) || ((due a.2 =? due b.2) && (a.1 <? b.1)%nat).

Definition pick (x : timer_id * timer) (acc : option (timer_id * timer)) :
    option (timer_id * timer) :=
  match acc with
  | None => Some x
  | Some y => if earlier x y then Some x else Some y
  end.

Definition next_timer (tm : gmap timer_id timer) : option (timer_id * timer) :=
  foldr pick None (map_to_list tm).

(** One turn of the event loop: the next timer fires, no earlier than it is
    due.  A one-shot timer leaves the queue; an interval is put back. *)
Definition fire (w : world) : world :=
  match next_timer (timers w) with
  | None => w
  | Some (t, tm) =>
      let w := set_now (Z.max (now w) (due tm)) w in
      let w := match repeat tm with
               | Some d => set_timers (insert t {| due := now w + d; repeat := Some d;
                                                   action := action tm |}) w
               | None => set_timers (delete t) w
               end in
      run_callback t (action tm) w
  end.

(** What can happen to the registry: a call by some task, a turn of the event
    loop, or time passing. *)
Inductive op :=
  | OpStart (key : string) (timeout : option Z) (meta : option Meta) (ownerId : option string)
  | OpEnd (key : string) (ownerId : option string)
  | OpForceUnlock (key : string)
  | OpClearAllLocks
  | OpRetryStart (key : string) (attempts initialDelay timeout : option Z)
      (meta : option Meta) (ownerId : option string)
  | OpWaitForUnlock (key : string) (checkInterval : option Z)
  | OpFire
  | OpElapse (ms : Z).

Definition exec (o : op) (w : world) : world :=
  match o with
  | OpStart key timeout meta ownerId => snd (start key timeout meta ownerId w)
  | OpEnd key ownerId => end_ key ownerId w
  | OpForceUnlock key => forceUnlock key w
  | OpClearAllLocks => clearAllLocks w
  | OpRetryStart key attempts initialDelay timeout meta ownerId =>
      snd (retryStart key attempts initialDelay timeout meta ownerId w)
  | OpWaitForUnlock key checkInterval => snd (waitForUnlock key checkInterval w)
  | OpFire => fire w
  | OpElapse ms => set_now (now w + Z.max 0 ms) w
  end.

Definition run (ops : list op) (w : world) : world :=
  foldl (λ w o, exec o w) w ops.

Definition reachable (w : world) : Prop := ∃ ops, w = run ops init.

(** The pending timers that would expire [key]. *)
Definition expires (key : string) (t : timer_id) (w : world) : Prop :=
  ∃ tm, timers w !! t = Some tm ∧ action tm = Expire key.

(** The registry and the timer queue agree: the [timeoutId] of a record is a
    queued one-shot timer that expires its key, every queued timer that
    expires a key is the [timeoutId] of the record of that key, and the
    handles in the queue have all been handed out. *)
Record timers_ok (w : world) : Prop := TimersOk {
  ok_record : ∀ k lock t,
    locks w !! k = Some lock → timeoutId lock = Some t → expires k t w;
  ok_timer : ∀ t tm k,
    timers w !! t = Some tm → action tm = Expire k →
    repeat tm = None ∧ ∃ lock, locks w !! k = Some lock ∧ timeoutId lock = Some t;
  ok_fresh : ∀ t, is_Some (timers w !! t) → (t < nextTimer w)%nat;
}.

Definition not_expiry (cb : callback) : Prop := ∀ k, cb ≠ Expire k.

(** The promise a queued callback will resolve, if it resolves one. *)
Definition callback_promise (cb : callback) : option nat :=
  match cb with
  | Expire _ => None
  | RetryResume f => Some (rf_promise f)
  | Poll _ p => Some p
  end.

(** Promises are numbered in the order they are made: the settled ones and
    the ones queued callbacks wait to resolve have all been handed out. *)
Record promises_ok (w : world) : Prop := PromisesOk {
  ok_settled : ∀ p, is_Some (settled w !! p) → (p < nextPromise w)%nat;
  ok_waiting : ∀ t tm p,
    timers w !! t = Some tm → callback_promise (action tm) = Some p →
    (p < nextPromise w)%nat;
}.

(** No queued callback waits to resolve promise [p]. *)
Definition unreferenced (p : nat) (w : world) : Prop :=
  ∀ t tm, timers w !! t = Some tm → callback_promise (action tm) ≠ Some p.

(** The callbacks that wait to resolve a promise: the promise is pending and
    no other timer waits for it, the sleep of a [retryStart] is a one-shot
    timer set after an attempt that the loop test let through, and the
    polling of a [waitForUnlock] is an interval. *)
Record waiters_ok (w : world) : Prop := WaitersOk {
  ok_pending : ∀ t tm p,
    timers w !! t = Some tm → callback_promise (action tm) = Some p →
    settled w !! p = None;
  ok_one_timer : ∀ t t' tm tm' p,
    timers w !! t = Some tm → timers w !! t' = Some tm' →
    callback_promise (action tm) = Some p → callback_promise (action tm') = Some p →
    t = t';
  ok_sleep : ∀ t tm f,
    timers w !! t = Some tm → action tm = RetryResume f →
    repeat tm = None ∧ rf_i f < rf_attempts f;
  ok_interval : ∀ t tm key p,
    timers w !! t = Some tm → action tm = Poll key p → is_Some (repeat tm);
}.

(** The line [retryStart] prints for failed attempt [j] (counted from 0),
    when its first attempt was made at [t0] and all attempts so far have
    failed. *)
Definition attempt_line (key : string) (t0 d : Z) (j : nat) : Z * diag :=
  (t0 + d * (2 ^ Z.of_nat j - 1),
   AttemptFailed key (Z.of_nat j + 1) (d * 2 ^ Z.of_nat j)).

(** The sleeps queued for promise [p] are those of a [retryStart] on [key]
    that locks with timeout [timeout]. *)
Definition call_frames (p : nat) (key : string) (timeout : Z) (w : world) : Prop :=
  ∀ t tm f, timers w !! t = Some tm → action tm = RetryResume f → rf_promise f = p →
            rf_key f = key ∧ rf_timeout f = timeout.

(** ** Basic facts *)

Lemma isLocked_true key w : isLocked key w = true ↔ is_Some (locks w !! key).
Proof. unfold isLocked. apply bool_decide_eq_true. Qed.

Lemma isLocked_false key w : isLocked key w = false ↔ locks w !! key = None.
Proof.
  unfold isLocked. rewrite bool_decide_eq_false. symmetry. apply eq_None_not_Some.
Qed.

Lemma start_held key timeout meta ownerId w lock :
  locks w !! key = Some lock → start key timeout meta ownerId w = (false, w).
Proof. intros H. unfold start. by rewrite H. Qed.

Lemma start_free key timeout meta ownerId w :
  locks w !! key = None →
  start key timeout meta ownerId w =
    if 0 <? default 0 timeout
    then (true, set_locks (insert key {| timestamp := now w; meta := default [] meta;
                                         ownerId := ownerId;
                                         timeoutId := Some (nextTimer w) |})
                  (snd (setTimeout (Expire key) (default 0 timeout) w)))
    else (true, set_locks (insert key {| timestamp := now w; meta := default [] meta;
                                         ownerId := ownerId; timeoutId := None |}) w).
Proof. intros H. unfold start. rewrite H. by destruct (0 <? _). Qed.

Lemma end_absent key ownerId w : locks w !! key = None → end_ key ownerId w = w.
Proof. intros H. unfold end_. by rewrite H. Qed.

Lemma end_released key w lock :
  locks w !! key = Some lock →
  end_ key None w =
    set_locks (delete key)
      (match timeoutId lock with Some t => clearTimeout t w | None => w end).
Proof. intros H. unfold end_. by rewrite H. Qed.

Lemma end_refused key b w lock :
  locks w !! key = Some lock → ownerId lock ≠ Some b →
  end_ key (Some b) w = emit (NonOwner key (Some b) (ownerId lock)) w.
Proof.
  intros H Hne. unfold end_. rewrite H.
  rewrite (bool_decide_eq_true_2 (Some b ≠ None)) by done.
  by rewrite (bool_decide_eq_true_2 (ownerId lock ≠ Some b)).
Qed.

Lemma locks_clear_timer lock w :
  locks (match timeoutId lock with Some t => clearTimeout t w | None => w end) = locks w.
Proof. by destruct (timeoutId lock). Qed.

(** ** Acquiring *)

(** C1: on a key that is not in the registry, [start] returns [true] and
    stores a record for the key (carrying the clock, the metadata and the
    owner it was given), after which [isLocked] answers [true]. *)
Theorem start_free_key key timeout meta ownerId w :
  locks w !! key = None →
  ∃ w' lock,
    start key timeout meta ownerId w = (true, w') ∧
    locks w' !! key = Some lock ∧
    timestamp lock = now w ∧
    GlobalLock.meta lock = default [] meta ∧
    GlobalLock.ownerId lock = ownerId ∧
    isLocked key w' = true.
Proof.
  intros Hfree. rewrite (start_free _ _ _ _ _ Hfree).
  destruct (0 <? default 0 timeout); eexists _, _;
    (split; [reflexivity|]); rewrite isLocked_true; simpl;
    rewrite lookup_insert_eq; eauto 10.
Qed.

Lemma start_free_key_witness :
  ∃ w' lock,
    start "my-task" (Some 3000) None None init = (true, w') ∧
    locks w' !! "my-task" = Some lock ∧
    timestamp lock = now init ∧
    GlobalLock.meta lock = default [] None ∧
    GlobalLock.ownerId lock = None ∧
    isLocked "my-task" w' = true.
Proof. apply (start_free_key "my-task" (Some 3000) None None init). reflexivity. Defined.

(** C2: on a key that is in the registry, [start] returns [false] and
    changes nothing: the world after the call is the world before it, so the
    record keeps its timestamp, metadata and owner, no record is added and no
    timer is scheduled. *)
Theorem start_locked_key key timeout meta ownerId w lock :
  locks w !! key = Some lock →
  start key timeout meta ownerId w = (false, w) ∧
  locks (snd (start key timeout meta ownerId w)) !! key = Some lock ∧
  locks (snd (start key timeout meta ownerId w)) = locks w ∧
  timers (snd (start key timeout meta ownerId w)) = timers w ∧
  nextTimer (snd (start key timeout meta ownerId w)) = nextTimer w.
Proof. intros H. by rewrite (start_held _ _ _ _ _ _ H). Qed.

Lemma start_locked_key_witness :
  let w := snd (start "my-task" (Some 3000) (Some [("job", "a")]) (Some "w1") init) in
  let lock := {| timestamp := 0; meta := [("job", "a")]; ownerId := Some "w1";
                 timeoutId := Some 1%nat |} in
  locks w !! "my-task" = Some lock ∧
  (start "my-task" (Some 10) None (Some "w2") w = (false, w) ∧
   locks (snd (start "my-task" (Some 10) None (Some "w2") w)) !! "my-task" = Some lock ∧
   locks (snd (start "my-task" (Some 10) None (Some "w2") w)) = locks w ∧
   timers (snd (start "my-task" (Some 10) None (Some "w2") w)) = timers w ∧
   nextTimer (snd (start "my-task" (Some 10) None (Some "w2") w)) = nextTimer w).
Proof.
  split; [reflexivity|].
  apply (start_locked_key "my-task" (Some 10) None (Some "w2")). reflexivity.
Defined.

(** C10: a timeout that is zero or negative schedules nothing: [start] does
    exactly what it does with timeout 0, the timer queue is left as it was,
    and the record stored for a free key has [timeoutId] null. *)
Theorem start_nonpositive_timeout key t meta ownerId w :
  t ≤ 0 →
  start key (Some t) meta ownerId w = start key (Some 0) meta ownerId w ∧
  timers (snd (start key (Some t) meta ownerId w)) = timers w ∧
  nextTimer (snd (start key (Some t) meta ownerId w)) = nextTimer w ∧
  (locks w !! key = None →
   ∃ lock, locks (snd (start key (Some t) meta ownerId w)) !! key = Some lock ∧
           timeoutId lock = None).
Proof.
  intros Ht. unfold start. simpl.
  assert ((0 <? t) = false) as -> by lia.
  destruct (locks w !! key) eqn:Hk; simpl; repeat split; try done.
  intros _. rewrite lookup_insert_eq. eauto.
Qed.

Lemma start_nonpositive_timeout_witness :
  start "my-task" (Some (-250)) None None init = start "my-task" (Some 0) None None init ∧
  timers (snd (start "my-task" (Some (-250)) None None init)) = timers init ∧
  nextTimer (snd (start "my-task" (Some (-250)) None None init)) = nextTimer init ∧
  (locks init !! "my-task" = None →
   ∃ lock, locks (snd (start "my-task" (Some (-250)) None None init)) !! "my-task" = Some lock ∧
           timeoutId lock = None).
Proof. apply (start_nonpositive_timeout "my-task" (-250) None None init). lia. Defined.

(** ** Releasing *)

(** C3, as the code has it: for a record whose owner is null (a lock taken by
    [start] with no [ownerId]), [end] with no owner removes the record and
    [isLocked] turns [false]; [end] with an owner is refused, because the
    stored null differs from every owner given, and the lock stays held. *)
Theorem end_unowned key o w lock :
  locks w !! key = Some lock →
  ownerId lock = None →
  match o with
  | None =>
      locks (end_ key None w) = delete key (locks w) ∧
      isLocked key (end_ key None w) = false
  | Some b =>
      locks (end_ key (Some b) w) = locks w ∧
      timers (end_ key (Some b) w) = timers w ∧
      isLocked key (end_ key (Some b) w) = true
  end.
Proof.
  intros Hk Hown. destruct o as [b|].
  - rewrite (end_refused _ b _ _ Hk) by (rewrite Hown; done).
    repeat split. rewrite isLocked_true. simpl. eauto.
  - rewrite (end_released _ _ _ Hk). simpl. rewrite locks_clear_timer.
    split; [done|]. rewrite isLocked_false. simpl.
    rewrite locks_clear_timer. apply lookup_delete_eq.
Qed.

Lemma end_unowned_witness :
  let w := snd (start "my-task" (Some 3000) None None init) in
  (locks (end_ "my-task" None w) = delete "my-task" (locks w) ∧
   isLocked "my-task" (end_ "my-task" None w) = false) ∧
  (locks (end_ "my-task" (Some "w1") w) = locks w ∧
   timers (end_ "my-task" (Some "w1") w) = timers w ∧
   isLocked "my-task" (end_ "my-task" (Some "w1") w) = true).
Proof.
  pose (w := snd (start "my-task" (Some 3000) None None init)).
  pose (lock := {| timestamp := 0; meta := []; ownerId := None;
                   timeoutId := Some 1%nat |}).
  split.
  - exact (end_unowned "my-task" None w lock eq_refl eq_refl).
  - exact (end_unowned "my-task" (Some "w1") w lock eq_refl eq_refl).
Defined.

(** C3 as stated fails: a lock taken without an owner is not released by
    [end] with owner "w1". *)
Lemma end_unowned_named_owner_refused :
  let w := snd (start "my-task" None None None init) in
  isLocked "my-task" w = true ∧
  isLocked "my-task" (end_ "my-task" (Some "w1") w) ≠ false ∧
  locks (end_ "my-task" (Some "w1") w) = locks w.
Proof. vm_compute. repeat split; congruence. Qed.

(** C5: [end] by an owner other than the stored one is refused: the registry
    and the timer queue are what they were, so the record is still there, the
    key is still locked and its expiry timer is still pending; only the
    warning is printed. *)
Theorem end_wrong_owner key b w lock :
  locks w !! key = Some lock →
  ownerId lock ≠ Some b →
  end_ key (Some b) w = emit (NonOwner key (Some b) (ownerId lock)) w ∧
  locks (end_ key (Some b) w) = locks w ∧
  timers (end_ key (Some b) w) = timers w ∧
  isLocked key (end_ key (Some b) w) = true ∧
  (∀ t, timeoutId lock = Some t →
        timers (end_ key (Some b) w) !! t = timers w !! t).
Proof.
  intros Hk Hne. rewrite (end_refused _ _ _ _ Hk Hne).
  repeat split. rewrite isLocked_true. simpl. eauto.
Qed.

Lemma end_wrong_owner_witness :
  let w := snd (start "invoice:ORD-1001" (Some 10000) None (Some "w1") init) in
  let lock := {| timestamp := 0; meta := []; ownerId := Some "w1";
                 timeoutId := Some 1%nat |} in
  end_ "invoice:ORD-1001" (Some "w2") w
    = emit (NonOwner "invoice:ORD-1001" (Some "w2") (ownerId lock)) w ∧
  locks (end_ "invoice:ORD-1001" (Some "w2") w) = locks w ∧
  timers (end_ "invoice:ORD-1001" (Some "w2") w) = timers w ∧
  isLocked "invoice:ORD-1001" (end_ "invoice:ORD-1001" (Some "w2") w) = true ∧
  (∀ t, timeoutId lock = Some t →
        timers (end_ "invoice:ORD-1001" (Some "w2") w) !! t = timers w !! t).
Proof.
  apply (end_wrong_owner "invoice:ORD-1001" "w2"
           (snd (start "invoice:ORD-1001" (Some 10000) None (Some "w1") init))
           {| timestamp := 0; meta := []; ownerId := Some "w1"; timeoutId := Some 1%nat |}).
  - reflexivity.
  - simpl. congruence.
Defined.

(** C9: [end] with no owner given skips the ownership check: a record that
    stores an owner is removed all the same, with its timer.  The check can
    only refuse a caller that names an owner. *)
Theorem end_without_owner key a w lock :
  locks w !! key = Some lock →
  ownerId lock = Some a →
  locks (end_ key None w) = delete key (locks w) ∧
  isLocked key (end_ key None w) = false ∧
  (∀ t, timeoutId lock = Some t → timers (end_ key None w) = delete t (timers w)) ∧
  (∀ o, isLocked key (end_ key o w) = true → ∃ b, o = Some b ∧ b ≠ a).
Proof.
  intros Hk Hown. rewrite (end_released _ _ _ Hk). simpl.
  rewrite locks_clear_timer.
  split; [done|]. split; [|split].
  - rewrite isLocked_false. simpl. rewrite locks_clear_timer. apply lookup_delete_eq.
  - intros t Ht. by rewrite Ht.
  - intros [b|] Hl.
    + exists b. split; [done|]. intros ->.
      revert Hl. unfold end_. rewrite Hk, Hown.
      rewrite (bool_decide_eq_false_2 (Some a ≠ Some a)) by (intros ?; done).
      rewrite andb_false_r. rewrite isLocked_true. simpl.
      rewrite locks_clear_timer, lookup_delete_eq. by intros [? ?].
    + revert Hl. rewrite (end_released _ _ _ Hk), isLocked_true. simpl.
      rewrite locks_clear_timer, lookup_delete_eq. by intros [? ?].
Qed.

Lemma end_without_owner_witness :
  let w := snd (start "invoice:ORD-1001" (Some 10000) None (Some "w1") init) in
  locks (end_ "invoice:ORD-1001" None w) = delete "invoice:ORD-1001" (locks w) ∧
  isLocked "invoice:ORD-1001" (end_ "invoice:ORD-1001" None w) = false ∧
  (∀ t, Some 1%nat = Some t →
        timers (end_ "invoice:ORD-1001" None w) = delete t (timers w)) ∧
  (∀ o, isLocked "invoice:ORD-1001" (end_ "invoice:ORD-1001" o w) = true →
        ∃ b, o = Some b ∧ b ≠ "w1").
Proof.
  exact (end_without_owner "invoice:ORD-1001" "w1"
           (snd (start "invoice:ORD-1001" (Some 10000) None (Some "w1") init))
           {| timestamp := 0; meta := []; ownerId := Some "w1"; timeoutId := Some 1%nat |}
           eq_refl eq_refl).
Defined.

(** C6: [forceUnlock] removes the record of a locked key whatever owner it
    stores, and takes its expiry timer, if it has one, off the queue; on a
    key that is not locked it changes nothing. *)
Theorem forceUnlock_clears key w :
  match locks w !! key with
  | Some lock =>
      locks (forceUnlock key w) = delete key (locks w) ∧
      isLocked key (forceUnlock key w) = false ∧
      timers (forceUnlock key w) =
        match timeoutId lock with
        | Some t => delete t (timers w)
        | None => timers w
        end
  | None => forceUnlock key w = w
  end.
Proof.
  unfold forceUnlock. destruct (locks w !! key) as [lock|] eqn:Hk.
  - rewrite (end_released _ _ _ Hk). simpl. rewrite locks_clear_timer.
    split; [done|]. split.
    + rewrite isLocked_false. simpl. rewrite locks_clear_timer. apply lookup_delete_eq.
    + by destruct (timeoutId lock).
  - by apply end_absent.
Qed.

(** ** Records and their expiry timers *)

Lemma timers_ok_init : timers_ok init.
Proof.
  split; simpl.
  - intros k lock t Hk. by rewrite lookup_empty in Hk.
  - intros t tm k Ht. by rewrite lookup_empty in Ht.
  - intros t [tm Ht]. by rewrite lookup_empty in Ht.
Qed.

Lemma timers_ok_same w w' :
  locks w' = locks w → timers w' = timers w → nextTimer w' = nextTimer w →
  timers_ok w → timers_ok w'.
Proof.
  intros Hl Ht Hn [H1 H2 H3]. split; unfold expires; rewrite ?Hl, ?Ht, ?Hn; auto.
Qed.

Lemma timers_ok_emit d w : timers_ok w → timers_ok (emit d w).
Proof. by apply timers_ok_same. Qed.

Lemma timers_ok_resolve p v w : timers_ok w → timers_ok (resolve p v w).
Proof. by apply timers_ok_same. Qed.

Lemma timers_ok_set_now t w : timers_ok w → timers_ok (set_now t w).
Proof. by apply timers_ok_same. Qed.

Lemma timers_ok_new_promise w : timers_ok w → timers_ok (snd (new_promise w)).
Proof. by apply timers_ok_same. Qed.

(** Queueing a callback that is not an expiry. *)
Lemma timers_ok_add_timer rep cb delay w :
  not_expiry cb → timers_ok w → timers_ok (snd (add_timer rep cb delay w)).
Proof.
  intros Hcb [H1 H2 H3]. split; simpl.
  - intros k lock t Hk Ht. destruct (H1 _ _ _ Hk Ht) as (tm & Htm & Ha).
    exists tm. split; [|done]. simpl. rewrite lookup_insert_ne; [done|].
    intros <-. specialize (H3 (nextTimer w) (ex_intro _ _ Htm)). lia.
  - intros t tm k Ht Ha. destruct (decide (nextTimer w = t)) as [<-|Hne].
    + rewrite lookup_insert_eq in Ht. injection Ht as <-. simpl in Ha.
      by destruct (Hcb k).
    + rewrite lookup_insert_ne in Ht by done. eauto.
  - intros t [tm Ht]. destruct (decide (nextTimer w = t)) as [<-|Hne]; [lia|].
    rewrite lookup_insert_ne in Ht by done.
    specialize (H3 t (ex_intro _ _ Ht)). lia.
Qed.

(** Taking a timer that is not an expiry off the queue, or putting it back. *)
Lemma timers_ok_delete_other t w :
  (∀ tm, timers w !! t = Some tm → not_expiry (action tm)) →
  timers_ok w → timers_ok (set_timers (delete t) w).
Proof.
  intros Hcb [H1 H2 H3]. split; simpl.
  - intros k lock t' Hk Ht. destruct (H1 _ _ _ Hk Ht) as (tm & Htm & Ha).
    exists tm. split; [|done]. simpl. rewrite lookup_delete_ne; [done|].
    intros ->. by destruct (Hcb _ Htm k).
  - intros t' tm k Ht Ha. apply lookup_delete_Some in Ht as [_ Ht]. eauto.
  - intros t' [tm Ht]. apply lookup_delete_Some in Ht as [_ Ht]. eauto.
Qed.

Lemma timers_ok_requeue t tm tm' w :
  timers w !! t = Some tm → not_expiry (action tm) → not_expiry (action tm') →
  timers_ok w → timers_ok (set_timers (insert t tm') w).
Proof.
  intros Hin Hcb Hcb' [H1 H2 H3]. split; simpl.
  - intros k lock t' Hk Ht. destruct (H1 _ _ _ Hk Ht) as (tm0 & Htm & Ha).
    exists tm0. split; [|done]. simpl. rewrite lookup_insert_ne; [done|].
    intros ->. rewrite Hin in Htm. injection Htm as <-. by destruct (Hcb k).
  - intros t' tm0 k Ht Ha. destruct (decide (t = t')) as [<-|Hne].
    + rewrite lookup_insert_eq in Ht. injection Ht as <-. by destruct (Hcb' k).
    + rewrite lookup_insert_ne in Ht by done. eauto.
  - intros t' [tm0 Ht]. destruct (decide (t = t')) as [<-|Hne]; [eauto|].
    rewrite lookup_insert_ne in Ht by done. eauto.
Qed.

(** Removing a record together with its timer, whether the timer is
    cancelled ([end]) or has just fired. *)
Lemma timers_ok_remove key lock w :
  locks w !! key = Some lock →
  timers_ok w →
  timers_ok
    (set_locks (delete key)
       (match timeoutId lock with Some t => clearTimeout t w | None => w end)).
Proof.
  intros Hk [H1 H2 H3]. split; simpl; rewrite ?locks_clear_timer.
  - intros k lock' t' Hk' Ht'. apply lookup_delete_Some in Hk' as [Hne Hk'].
    destruct (H1 _ _ _ Hk' Ht') as (tm & Htm & Ha).
    exists tm. split; [|done]. simpl.
    destruct (timeoutId lock) as [t|] eqn:Hlt; [|done]. simpl.
    rewrite lookup_delete_ne; [done|]. intros ->.
    destruct (H2 _ _ _ Htm Ha) as (_ & l2 & Hl2 & Ht2).
    destruct (H1 _ _ _ Hk Hlt) as (tm1 & Htm1 & Ha1).
    rewrite Htm in Htm1. injection Htm1 as <-. congruence.
  - intros t' tm k Ht' Ha.
    assert (timers w !! t' = Some tm ∧ timeoutId lock ≠ Some t') as [Htm Hnt].
    { destruct (timeoutId lock) as [t|]; [|done]. simpl in Ht'.
      apply lookup_delete_Some in Ht' as [Hne Ht']. split; [done|congruence]. }
    destruct (H2 _ _ _ Htm Ha) as (Hrep & l2 & Hl2 & Ht2).
    split; [done|]. exists l2. split; [|done].
    rewrite lookup_delete_ne; [done|]. intros <-. congruence.
  - intros t' [tm Ht'].
    destruct (timeoutId lock) as [t|]; simpl in *; [|eauto].
    apply lookup_delete_Some in Ht' as [_ Ht']. eauto.
Qed.

Lemma timers_ok_start key timeout meta ownerId w :
  timers_ok w → timers_ok (snd (start key timeout meta ownerId w)).
Proof.
  intros Hok. destruct (locks w !! key) as [lock|] eqn:Hk.
  { by rewrite (start_held _ _ _ _ _ _ Hk). }
  rewrite (start_free _ _ _ _ _ Hk). destruct Hok as [H1 H2 H3].
  assert (∀ t tm, timers w !! t = Some tm → action tm ≠ Expire key) as Hno.
  { intros t tm Ht Ha. destruct (H2 _ _ _ Ht Ha) as (_ & l & Hl & _). congruence. }
  destruct (0 <? default 0 timeout); split; simpl.
  - intros k lock t Hl Ht. destruct (decide (key = k)) as [<-|Hne].
    + rewrite lookup_insert_eq in Hl. injection Hl as <-. simpl in Ht.
      injection Ht as <-. eexists. simpl. rewrite lookup_insert_eq. done.
    + rewrite lookup_insert_ne in Hl by done.
      destruct (H1 _ _ _ Hl Ht) as (tm & Htm & Ha).
      exists tm. split; [|done]. simpl. rewrite lookup_insert_ne; [done|].
      intros <-. specialize (H3 (nextTimer w) (ex_intro _ _ Htm)). lia.
  - intros t tm k Ht Ha. destruct (decide (nextTimer w = t)) as [<-|Hne].
    + rewrite lookup_insert_eq in Ht. injection Ht as <-. simpl in Ha.
      injection Ha as <-. split; [done|]. eexists. by rewrite lookup_insert_eq.
    + rewrite lookup_insert_ne in Ht by done.
      destruct (H2 _ _ _ Ht Ha) as (Hrep & l & Hl & Hlt).
      split; [done|]. exists l. split; [|done].
      rewrite lookup_insert_ne; [done|]. intros <-. congruence.
  - intros t [tm Ht]. destruct (decide (nextTimer w = t)) as [<-|Hne]; [lia|].
    rewrite lookup_insert_ne in Ht by done.
    specialize (H3 t (ex_intro _ _ Ht)). lia.
  - intros k lock t Hl Ht. destruct (decide (key = k)) as [<-|Hne].
    + rewrite lookup_insert_eq in Hl. by injection Hl as <-.
    + rewrite lookup_insert_ne in Hl by done. by apply (H1 k lock t).
  - intros t tm k Ht Ha. destruct (H2 _ _ _ Ht Ha) as (Hrep & l & Hl & Hlt).
    split; [done|]. exists l. split; [|done].
    rewrite lookup_insert_ne; [done|]. intros <-. congruence.
  - done.
Qed.

Lemma timers_ok_end key ownerId w : timers_ok w → timers_ok (end_ key ownerId w).
Proof.
  intros Hok. unfold end_. destruct (locks w !! key) as [lock|] eqn:Hk; [|done].
  destruct (_ && _).
  - by apply timers_ok_emit.
  - by apply timers_ok_remove.
Qed.

(** The [forEach] of [clearAllLocks] only takes timers off the queue, and
    takes off the timer of every record it visits. *)
Lemma clear_lock_timers_spec w (m : gmap string lockInfo) :
  locks (map_fold clear_lock_timer w m) = locks w ∧
  nextTimer (map_fold clear_lock_timer w m) = nextTimer w ∧
  (∀ t tm, timers (map_fold clear_lock_timer w m) !! t = Some tm →
           timers w !! t = Some tm) ∧
  (∀ k lock t, m !! k = Some lock → timeoutId lock = Some t →
               timers (map_fold clear_lock_timer w m) !! t = None).
Proof.
  apply (map_fold_weak_ind (λ r m,
    locks r = locks w ∧ nextTimer r = nextTimer w ∧
    (∀ t tm, timers r !! t = Some tm → timers w !! t = Some tm) ∧
    (∀ k lock t, m !! k = Some lock → timeoutId lock = Some t →
                 timers r !! t = None))); clear m.
  - by repeat split.
  - intros k lock m r Hfree (Hl & Hn & Hsub & Hgone). unfold clear_lock_timer.
    split; [by destruct (timeoutId lock)|].
    split; [by destruct (timeoutId lock)|]. split.
    + intros t tm Ht. apply Hsub.
      destruct (timeoutId lock); [|done]. simpl in Ht.
      by apply lookup_delete_Some in Ht as [_ Ht].
    + intros k' lock' t Hk' Ht'. destruct (decide (k = k')) as [<-|Hne].
      * rewrite lookup_insert_eq in Hk'. injection Hk' as <-.
        rewrite Ht'. simpl. apply lookup_delete_eq.
      * rewrite lookup_insert_ne in Hk' by done.
        specialize (Hgone _ _ _ Hk' Ht').
        destruct (timeoutId lock); [|done]. simpl.
        apply lookup_delete_None. by right.
Qed.

Lemma timers_ok_clearAllLocks w : timers_ok w → timers_ok (clearAllLocks w).
Proof.
  intros [H1 H2 H3]. unfold clearAllLocks. apply timers_ok_emit.
  destruct (clear_lock_timers_spec w (locks w)) as (Hl & Hn & Hsub & Hgone).
  split; simpl.
  - intros k lock t Hk. by rewrite lookup_empty in Hk.
  - intros t tm k Ht Ha. pose proof (Hsub _ _ Ht) as Ht0.
    destruct (H2 _ _ _ Ht0 Ha) as (_ & lock & Hk & Hlt).
    rewrite (Hgone _ _ _ Hk Hlt) in Ht. done.
  - intros t [tm Ht]. rewrite Hn. eauto.
Qed.

Lemma timers_ok_retry_loop f w : timers_ok w → timers_ok (retry_loop f w).
Proof.
  intros Hok. unfold retry_loop. destruct (rf_i f <? rf_attempts f).
  - pose proof (timers_ok_start (rf_key f) (Some (rf_timeout f)) (Some (rf_meta f))
                  (rf_ownerId f) w Hok) as Hs.
    destruct (start _ _ _ _ w) as [ok w']. simpl in Hs. destruct ok.
    + by apply timers_ok_resolve.
    + apply (timers_ok_add_timer false); [by intros k|by apply timers_ok_emit].
  - by apply timers_ok_resolve, timers_ok_emit.
Qed.

Lemma timers_ok_retryStart key attempts initialDelay timeout meta ownerId w :
  timers_ok w →
  timers_ok (snd (retryStart key attempts initialDelay timeout meta ownerId w)).
Proof.
  intros Hok. unfold retryStart.
  pose proof (timers_ok_new_promise w Hok) as Hp.
  destruct (new_promise w) as [p w']. cbn [snd] in *.
  by apply timers_ok_retry_loop.
Qed.

Lemma timers_ok_waitForUnlock key checkInterval w :
  timers_ok w → timers_ok (snd (waitForUnlock key checkInterval w)).
Proof.
  intros Hok. unfold waitForUnlock.
  pose proof (timers_ok_new_promise w Hok) as Hp.
  destruct (new_promise w) as [p w']. simpl in Hp.
  destruct (negb _); cbn [snd].
  - by apply timers_ok_resolve.
  - by apply (timers_ok_add_timer true); [intros k|].
Qed.

Lemma timers_ok_poll key p t w :
  (∀ tm, timers w !! t = Some tm → not_expiry (action tm)) →
  timers_ok w → timers_ok (poll key p t w).
Proof.
  intros Hcb Hok. unfold poll. destruct (negb _); [|done].
  by apply timers_ok_resolve, timers_ok_delete_other.
Qed.

(** The next timer is one of the queue. *)
Lemma pick_elem_of (l : list (timer_id * timer)) x :
  foldr pick None l = Some x → x ∈ l.
Proof.
  induction l as [|y l IH]; simpl; [done|].
  unfold pick at 1. destruct (foldr pick None l) as [z|].
  - destruct (earlier y z); intros [= <-].
    + apply elem_of_cons. by left.
    + apply elem_of_cons. right. by apply IH.
  - intros [= <-]. apply elem_of_cons. by left.
Qed.

Lemma next_timer_Some (q : gmap timer_id timer) t tm :
  next_timer q = Some (t, tm) → q !! t = Some tm.
Proof. intros H. by apply elem_of_map_to_list, pick_elem_of. Qed.

(** The turn in which an expiry fires: the timer leaves the queue and the
    record leaves the registry. *)
Lemma fire_expiry w t tm key :
  next_timer (timers w) = Some (t, tm) → action tm = Expire key → repeat tm = None →
  fire w =
    emit (AutoReleased key)
      (set_locks (delete key)
         (clearTimeout t (set_now (Z.max (now w) (due tm)) w))).
Proof. intros Hn Ha Hrep. unfold fire. by rewrite Hn, Hrep, Ha. Qed.

Lemma timers_ok_fire w : timers_ok w → timers_ok (fire w).
Proof.
  intros Hok. destruct (next_timer (timers w)) as [[t tm]|] eqn:Hn.
  2:{ unfold fire. by rewrite Hn. }
  pose proof (next_timer_Some _ _ _ Hn) as Hin.
  destruct (action tm) as [key|f|key p] eqn:Ha.
  - destruct (ok_timer _ Hok _ _ _ Hin Ha) as (Hrep & lock & Hk & Hlt).
    rewrite (fire_expiry _ _ _ _ Hn Ha Hrep). apply timers_ok_emit.
    pose proof (timers_ok_remove key lock (set_now (Z.max (now w) (due tm)) w) Hk
                  (timers_ok_set_now _ _ Hok)) as Hrm.
    by rewrite Hlt in Hrm.
  - unfold fire. rewrite Hn, Ha. simpl. apply timers_ok_retry_loop.
    destruct (repeat tm).
    + eapply (timers_ok_requeue t tm); [done|by rewrite Ha|done|].
      by apply timers_ok_set_now.
    + apply timers_ok_delete_other; [|by apply timers_ok_set_now].
      simpl. intros tm' Htm' k. rewrite Hin in Htm'. injection Htm' as <-.
      by rewrite Ha.
  - unfold fire. rewrite Hn, Ha. simpl. destruct (repeat tm).
    + apply timers_ok_poll.
      * simpl. intros tm'. rewrite lookup_insert_eq. by intros [= <-] k.
      * eapply (timers_ok_requeue t tm); [done|by rewrite Ha|done|].
        by apply timers_ok_set_now.
    + apply timers_ok_poll.
      * simpl. intros tm'. by rewrite lookup_delete_eq.
      * apply timers_ok_delete_other; [|by apply timers_ok_set_now].
        simpl. intros tm' Htm' k. rewrite Hin in Htm'. injection Htm' as <-.
        by rewrite Ha.
Qed.

Lemma timers_ok_exec o w : timers_ok w → timers_ok (exec o w).
Proof.
  intros Hok. destruct o; simpl.
  - by apply timers_ok_start.
  - by apply timers_ok_end.
  - by apply timers_ok_end.
  - by apply timers_ok_clearAllLocks.
  - by apply timers_ok_retryStart.
  - by apply timers_ok_waitForUnlock.
  - by apply timers_ok_fire.
  - by apply timers_ok_set_now.
Qed.

Lemma timers_ok_run ops w : timers_ok w → timers_ok (run ops w).
Proof.
  revert w. induction ops as [|o ops IH]; intros w Hok; [done|].
  simpl. by apply IH, timers_ok_exec.
Qed.

Lemma reachable_timers_ok w : reachable w → timers_ok w.
Proof. intros [ops ->]. apply timers_ok_run, timers_ok_init. Qed.

Lemma reachable_exec o w : reachable w → reachable (exec o w).
Proof.
  intros [ops ->]. exists (ops ++ [o]). unfold run. by rewrite foldl_app.
Qed.

(** In a consistent world the expiries of a key are read off its record. *)
Lemma expires_iff w key t :
  timers_ok w →
  expires key t w ↔ ∃ lock, locks w !! key = Some lock ∧ timeoutId lock = Some t.
Proof.
  intros Hok. split.
  - intros (tm & Htm & Ha). by destruct (ok_timer _ Hok _ _ _ Htm Ha).
  - intros (lock & Hk & Ht). by apply (ok_record _ Hok _ lock).
Qed.

Lemma not_locked_no_expiry w key t :
  timers_ok w → locks w !! key = None → ¬ expires key t w.
Proof.
  intros Hok Hk Hex. apply (expires_iff _ _ _ Hok) in Hex as (lock & Hl & _).
  congruence.
Qed.

(** C7: in every world the module can reach, the expiry timers on the queue
    are exactly the [timeoutId]s of the records: a record has its one timer
    and no other, and a key without a record has none.  A record made with a
    positive timeout gets one fresh timer.  Each way out of the registry
    takes the timer along: after [end] or [forceUnlock] has removed the
    record, after the expiry itself has fired, and after [clearAllLocks], no
    timer that would expire the key is left on the queue;
    [clearAllLocks] leaves the count at 0. *)
Theorem expiry_timers_exact w :
  reachable w →
  (∀ key lock t, locks w !! key = Some lock →
     (expires key t w ↔ timeoutId lock = Some t)) ∧
  (∀ key t, locks w !! key = None → ¬ expires key t w) ∧
  (∀ key timeout meta ownerId, locks w !! key = None → 0 < timeout →
     ∃ lock, locks (snd (start key (Some timeout) meta ownerId w)) !! key = Some lock ∧
             timeoutId lock = Some (nextTimer w) ∧
             ∀ t, expires key t (snd (start key (Some timeout) meta ownerId w))
                  ↔ t = nextTimer w) ∧
  (∀ key ownerId t, isLocked key (end_ key ownerId w) = false →
     ¬ expires key t (end_ key ownerId w)) ∧
  (∀ key t, isLocked key (forceUnlock key w) = false ∧
            ¬ expires key t (forceUnlock key w)) ∧
  (∀ key t tm, next_timer (timers w) = Some (t, tm) → action tm = Expire key →
     isLocked key (fire w) = false ∧
     timers (fire w) !! t = None ∧
     ∀ t', ¬ expires key t' (fire w)) ∧
  (getLockCount (clearAllLocks w) = 0%nat ∧
   ∀ key t, ¬ expires key t (clearAllLocks w)).
Proof.
  intros Hr. pose proof (reachable_timers_ok _ Hr) as Hok.
  split; [|split; [|split; [|split; [|split; [|split]]]]].
  - intros key lock t Hk. rewrite (expires_iff _ _ _ Hok). split.
    + intros (lock' & Hk' & Ht). congruence.
    + eauto.
  - intros key t. by apply not_locked_no_expiry.
  - intros key timeout meta ownerId Hk Hpos.
    pose proof (timers_ok_start key (Some timeout) meta ownerId w Hok) as Hok'.
    revert Hok'. rewrite (start_free _ _ _ _ _ Hk). simpl.
    assert ((0 <? timeout) = true) as -> by lia. intros Hok'.
    eexists. split; [simpl; by rewrite lookup_insert_eq|]. split; [done|].
    intros t. rewrite (expires_iff _ _ _ Hok'). simpl. rewrite lookup_insert_eq.
    split.
    + intros (lock & [= <-] & Ht). simpl in Ht. congruence.
    + intros ->. eauto.
  - intros key ownerId t Hl. apply not_locked_no_expiry.
    + by apply timers_ok_end.
    + by apply isLocked_false.
  - intros key t.
    assert (locks (forceUnlock key w) !! key = None) as Hgone.
    { unfold forceUnlock. destruct (locks w !! key) as [lock|] eqn:Hk.
      - rewrite (end_released _ _ _ Hk). simpl. rewrite locks_clear_timer.
        apply lookup_delete_eq.
      - by rewrite (end_absent _ _ _ Hk). }
    split; [by apply isLocked_false|].
    apply not_locked_no_expiry; [by apply timers_ok_end|done].
  - intros key t tm Hn Ha.
    pose proof (next_timer_Some _ _ _ Hn) as Hin.
    destruct (ok_timer _ Hok _ _ _ Hin Ha) as (Hrep & _).
    pose proof (timers_ok_fire w Hok) as Hok'.
    assert (locks (fire w) !! key = None) as Hgone.
    { rewrite (fire_expiry _ _ _ _ Hn Ha Hrep). simpl. apply lookup_delete_eq. }
    split; [by apply isLocked_false|]. split.
    + rewrite (fire_expiry _ _ _ _ Hn Ha Hrep). simpl. apply lookup_delete_eq.
    + intros t'. by apply not_locked_no_expiry.
  - split.
    + unfold getLockCount, clearAllLocks. simpl. apply map_size_empty.
    + intros key t. apply not_locked_no_expiry.
      * by apply timers_ok_clearAllLocks.
      * unfold clearAllLocks. simpl. apply lookup_empty.
Qed.

Lemma expiry_timers_exact_witness :
  let w := run [OpStart "invoice:ORD-1001" (Some 10000) None (Some "w1");
                OpStart "my-task" (Some 3000) None None;
                OpEnd "invoice:ORD-1001" (Some "w2");
                OpRetryStart "my-task" (Some 3) (Some 100) None None None;
                OpFire] init in
  reachable w ∧
  (∀ key lock t, locks w !! key = Some lock →
     (expires key t w ↔ timeoutId lock = Some t)) ∧
  (∀ key t, locks w !! key = None → ¬ expires key t w) ∧
  (∀ key timeout meta ownerId, locks w !! key = None → 0 < timeout →
     ∃ lock, locks (snd (start key (Some timeout) meta ownerId w)) !! key = Some lock ∧
             timeoutId lock = Some (nextTimer w) ∧
             ∀ t, expires key t (snd (start key (Some timeout) meta ownerId w))
                  ↔ t = nextTimer w) ∧
  (∀ key ownerId t, isLocked key (end_ key ownerId w) = false →
     ¬ expires key t (end_ key ownerId w)) ∧
  (∀ key t, isLocked key (forceUnlock key w) = false ∧
            ¬ expires key t (forceUnlock key w)) ∧
  (∀ key t tm, next_timer (timers w) = Some (t, tm) → action tm = Expire key →
     isLocked key (fire w) = false ∧
     timers (fire w) !! t = None ∧
     ∀ t', ¬ expires key t' (fire w)) ∧
  (getLockCount (clearAllLocks w) = 0%nat ∧
   ∀ key t, ¬ expires key t (clearAllLocks w)).
Proof.
  intros w.
  assert (reachable w) as Hr by (eexists; reflexivity).
  split; [exact Hr|]. exact (expiry_timers_exact w Hr).
Defined.

(** ** Retrying *)

(** A failed attempt of [retryStart] is followed by a sleep of
    [initialDelay * 2^i], whatever the number of attempts left. *)
Lemma retry_loop_held f w lock :
  locks w !! rf_key f = Some lock →
  rf_i f < rf_attempts f →
  retry_loop f w =
    snd (setTimeout (RetryResume f) (rf_initialDelay f * 2 ^ rf_i f)
           (emit (AttemptFailed (rf_key f) (rf_i f + 1)
                    (rf_initialDelay f * 2 ^ rf_i f)) w)).
Proof.
  intros Hk Hi. unfold retry_loop.
  assert ((rf_i f <? rf_attempts f) = true) as -> by lia.
  by rewrite (start_held _ _ _ _ _ _ Hk).
Qed.

(** C4 on the code: [retryStart(k, 3, 100)] on a key held without timeout.
    The three attempts are made at 0, 100 and 300 ms, each followed by a
    sleep; after the third the call sleeps for 400 ms more, and the promise
    resolves to [false] at 700 ms, not at 300. *)
Theorem retryStart_held_sleeps_after_last_attempt :
  let held := snd (start "k" None None None init) in
  let w0 := snd (retryStart "k" (Some 3) (Some 100) None None None held) in
  let w2 := fire (fire w0) in
  console w2 = [(0, AttemptFailed "k" 1 100); (100, AttemptFailed "k" 2 200);
                (300, AttemptFailed "k" 3 400)] ∧
  now w2 = 300 ∧
  settled w2 !! 0%nat = None ∧
  (∃ f, map_to_list (timers w2)
          = [(3%nat, {| due := 700; repeat := None; action := RetryResume f |})]) ∧
  now (fire w2) = 700 ∧
  settled (fire w2) !! 0%nat = Some (PBool false) ∧
  console (fire w2) = console w2 ++ [(700, RetryExhausted "k" 3)] ∧
  isLocked "k" (fire w2) = true.
Proof. vm_compute. repeat split; eauto. Qed.

(** C8 as stated fails: a lock taken by [retryStart] without a timeout is not
    the lock taken with timeout 0; it has an expiry timer, and the next turn
    of the event loop, 5000 ms later, releases it with no call to [end]. *)
Lemma retryStart_without_timeout_expires :
  let w := snd (retryStart "k" (Some 3) (Some 100) None None None init) in
  w ≠ snd (retryStart "k" (Some 3) (Some 100) (Some 0) None None init) ∧
  (∃ lock, locks w !! "k" = Some lock ∧ timeoutId lock ≠ None) ∧
  isLocked "k" w = true ∧
  now (fire w) = 5000 ∧
  isLocked "k" (fire w) = false.
Proof.
  split; [|split; [|by vm_compute]].
  - intros H. apply (f_equal nextTimer) in H. vm_compute in H. discriminate.
  - eexists. split; [vm_compute; reflexivity|]. simpl. discriminate.
Qed.

(** ** Inspecting the registry *)

(** X1: what [getLockInfo] returns for a key just acquired is what [start]
    was given: the clock at the call, the metadata (or the empty object) and
    the owner. *)
Theorem getLockInfo_start key timeout meta ownerId w :
  locks w !! key = None →
  getLockInfo key (snd (start key timeout meta ownerId w)) =
    Some {| v_timestamp := now w; v_meta := default [] meta; v_ownerId := ownerId |}.
Proof.
  intros Hk. rewrite (start_free _ _ _ _ _ Hk). unfold getLockInfo.
  destruct (0 <? default 0 timeout); simpl; by rewrite lookup_insert_eq.
Qed.

Lemma getLockInfo_start_witness :
  getLockInfo "invoice:ORD-1001"
    (snd (start "invoice:ORD-1001" (Some 10000) (Some [("type", "pdf")]) (Some "w1") init)) =
    Some {| v_timestamp := now init; v_meta := default [] (Some [("type", "pdf")]);
            v_ownerId := Some "w1" |}.
Proof.
  apply (getLockInfo_start "invoice:ORD-1001" (Some 10000) (Some [("type", "pdf")])
           (Some "w1") init).
  reflexivity.
Defined.

(** X2: [getLockCount] goes up by one when [start] returns [true] and stays
    as it is when [start] returns [false]. *)
Theorem getLockCount_start key timeout meta ownerId w :
  getLockCount (snd (start key timeout meta ownerId w)) =
    if fst (start key timeout meta ownerId w)
    then S (getLockCount w)
    else getLockCount w.
Proof.
  destruct (locks w !! key) as [lock|] eqn:Hk.
  - by rewrite (start_held _ _ _ _ _ _ Hk).
  - rewrite (start_free _ _ _ _ _ Hk). unfold getLockCount.
    destruct (0 <? default 0 timeout); simpl; by apply map_size_insert_None.
Qed.

(** X3: [end] takes [getLockCount] down by one exactly when it releases a
    held key; on a key that is not held, and when it refuses, the count is
    unchanged. *)
Theorem getLockCount_end key ownerId w :
  getLockCount w =
    (getLockCount (end_ key ownerId w) +
     if isLocked key w && negb (isLocked key (end_ key ownerId w)) then 1 else 0)%nat.
Proof.
  unfold end_, isLocked, getLockCount.
  destruct (locks w !! key) as [lock|] eqn:Hk.
  - rewrite (bool_decide_eq_true_2 (is_Some (Some lock))) by eauto.
    destruct (_ && _); simpl.
    + rewrite Hk. rewrite (bool_decide_eq_true_2 (is_Some (Some lock))) by eauto.
      simpl. lia.
    + rewrite locks_clear_timer, lookup_delete_eq.
      rewrite (bool_decide_eq_false_2 (is_Some None)) by (by intros [? ?]).
      simpl. rewrite map_size_delete, Hk. simpl.
      assert (size (locks w) ≠ 0%nat); [|lia].
      apply map_size_non_empty_iff. intros He. by rewrite He, lookup_empty in Hk.
  - rewrite (bool_decide_eq_false_2 (is_Some None)) by (by intros [? ?]).
    simpl. lia.
Qed.

(** X4: the keys listed by [getAllLockedKeys] are the locked keys, each
    once, and there are [getLockCount] of them. *)
Theorem getAllLockedKeys_spec w :
  NoDup (getAllLockedKeys w) ∧
  length (getAllLockedKeys w) = getLockCount w ∧
  ∀ key, key ∈ getAllLockedKeys w ↔ isLocked key w = true.
Proof.
  unfold getAllLockedKeys, getLockCount. split; [|split].
  - apply NoDup_fst_map_to_list.
  - by rewrite length_fmap, length_map_to_list.
  - intros key. rewrite isLocked_true, list_elem_of_fmap. split.
    + intros ([k lock] & -> & Hin). apply elem_of_map_to_list in Hin. eauto.
    + intros [lock Hk]. exists (key, lock). split; [done|].
      by apply elem_of_map_to_list.
Qed.

(** ** Acquire and release together *)

(** X5: [end] by the stored owner releases: it does what [end] without an
    owner does, the key is free afterwards and no warning is printed. *)
Theorem end_by_owner key a w lock :
  locks w !! key = Some lock →
  ownerId lock = Some a →
  end_ key (Some a) w = end_ key None w ∧
  isLocked key (end_ key (Some a) w) = false ∧
  console (end_ key (Some a) w) = console w.
Proof.
  intros Hk Hown.
  assert (end_ key (Some a) w = end_ key None w) as Heq.
  { unfold end_. rewrite Hk, Hown.
    rewrite (bool_decide_eq_false_2 (Some a ≠ Some a)) by (intros ?; done).
    by rewrite andb_false_r. }
  rewrite Heq, (end_released _ _ _ Hk). split; [done|]. split.
  - rewrite isLocked_false. simpl. rewrite locks_clear_timer. apply lookup_delete_eq.
  - simpl. by destruct (timeoutId lock).
Qed.

Lemma end_by_owner_witness :
  let w := snd (start "invoice:ORD-1001" (Some 10000) None (Some "w1") init) in
  end_ "invoice:ORD-1001" (Some "w1") w = end_ "invoice:ORD-1001" None w ∧
  isLocked "invoice:ORD-1001" (end_ "invoice:ORD-1001" (Some "w1") w) = false ∧
  console (end_ "invoice:ORD-1001" (Some "w1") w) = console w.
Proof.
  exact (end_by_owner "invoice:ORD-1001" "w1"
           (snd (start "invoice:ORD-1001" (Some 10000) None (Some "w1") init))
           {| timestamp := 0; meta := []; ownerId := Some "w1"; timeoutId := Some 1%nat |}
           eq_refl eq_refl).
Defined.

(** X6: taking a free key and giving it back with the owner it was taken
    with (or with none on both sides) undoes the acquisition: the registry,
    the timer queue, the console and the clock are what they were before
    [start]; the expiry timer of the lock, if it had one, is cancelled. *)
Theorem start_end_roundtrip key timeout meta ownerId w :
  reachable w →
  locks w !! key = None →
  locks (end_ key ownerId (snd (start key timeout meta ownerId w))) = locks w ∧
  timers (end_ key ownerId (snd (start key timeout meta ownerId w))) = timers w ∧
  console (end_ key ownerId (snd (start key timeout meta ownerId w))) = console w ∧
  now (end_ key ownerId (snd (start key timeout meta ownerId w))) = now w.
Proof.
  intros Hr Hk. pose proof (reachable_timers_ok _ Hr) as Hok.
  assert (timers w !! nextTimer w = None) as Hfresh.
  { apply eq_None_not_Some. intros Hs. apply (ok_fresh _ Hok) in Hs. lia. }
  rewrite (start_free _ _ _ _ _ Hk). unfold end_.
  destruct (0 <? default 0 timeout); simpl; rewrite lookup_insert_eq; simpl;
    rewrite (bool_decide_eq_false_2 (ownerId ≠ ownerId)) by (intros ?; done);
    rewrite andb_false_r; simpl.
  - by rewrite !delete_insert_id.
  - by rewrite !delete_insert_id.
Qed.

Lemma start_end_roundtrip_witness :
  let w := run [OpStart "my-task" (Some 3000) None None; OpElapse 1000] init in
  locks (end_ "invoice:ORD-1001" (Some "w1")
           (snd (start "invoice:ORD-1001" (Some 10000) None (Some "w1") w))) = locks w ∧
  timers (end_ "invoice:ORD-1001" (Some "w1")
            (snd (start "invoice:ORD-1001" (Some 10000) None (Some "w1") w))) = timers w ∧
  console (end_ "invoice:ORD-1001" (Some "w1")
             (snd (start "invoice:ORD-1001" (Some 10000) None (Some "w1") w))) = console w ∧
  now (end_ "invoice:ORD-1001" (Some "w1")
         (snd (start "invoice:ORD-1001" (Some 10000) None (Some "w1") w))) = now w.
Proof.
  intros w.
  apply (start_end_roundtrip "invoice:ORD-1001" (Some 10000) None (Some "w1") w).
  - eexists; reflexivity.
  - reflexivity.
Defined.

(** X7: locks on different keys do not disturb each other.  [start], [end]
    and [forceUnlock] on a key, and the expiry of a key, leave the record of
    every other key as it is, and [end] leaves the expiry timer of every
    other record on the queue. *)
Theorem other_keys_untouched key k' w :
  reachable w →
  k' ≠ key →
  (∀ timeout meta ownerId,
     locks (snd (start key timeout meta ownerId w)) !! k' = locks w !! k') ∧
  (∀ ownerId, locks (end_ key ownerId w) !! k' = locks w !! k') ∧
  locks (forceUnlock key w) !! k' = locks w !! k' ∧
  (∀ t tm, next_timer (timers w) = Some (t, tm) → action tm = Expire key →
           locks (fire w) !! k' = locks w !! k') ∧
  (∀ ownerId lock' t', locks w !! k' = Some lock' → timeoutId lock' = Some t' →
     timers (end_ key ownerId w) !! t' = timers w !! t').
Proof.
  intros Hr Hne. pose proof (reachable_timers_ok _ Hr) as Hok.
  assert (∀ ownerId, locks (end_ key ownerId w) !! k' = locks w !! k') as Hend.
  { intros ownerId. unfold end_. destruct (locks w !! key) as [lock|]; [|done].
    destruct (_ && _); [done|]. simpl.
    rewrite locks_clear_timer. by apply lookup_delete_ne. }
  split; [|split; [done|split; [apply Hend|split]]].
  - intros timeout meta ownerId. unfold start.
    destruct (locks w !! key); [done|].
    destruct (0 <? default 0 timeout); simpl; by apply lookup_insert_ne.
  - intros t tm Hn Ha. pose proof (next_timer_Some _ _ _ Hn) as Hin.
    destruct (ok_timer _ Hok _ _ _ Hin Ha) as (Hrep & _).
    rewrite (fire_expiry _ _ _ _ Hn Ha Hrep). simpl. by apply lookup_delete_ne.
  - intros ownerId lock' t' Hk' Ht'. unfold end_.
    destruct (locks w !! key) as [lock|] eqn:Hk; [|done].
    destruct (_ && _); [done|]. simpl.
    destruct (timeoutId lock) as [t|] eqn:Hlt; [|done]. simpl.
    apply lookup_delete_ne. intros ->.
    destruct (ok_record _ Hok _ _ _ Hk Hlt) as (tm & Htm & Ha).
    destruct (ok_record _ Hok _ _ _ Hk' Ht') as (tm' & Htm' & Ha').
    congruence.
Qed.

Lemma other_keys_untouched_witness :
  let w := run [OpStart "invoice:ORD-1001" (Some 10000) None (Some "w1");
                OpStart "my-task" (Some 3000) None None] init in
  locks (end_ "my-task" None w) !! "invoice:ORD-1001" = locks w !! "invoice:ORD-1001" ∧
  locks (fire w) !! "invoice:ORD-1001" = locks w !! "invoice:ORD-1001".
Proof.
  intros w.
  assert (reachable w) as Hr by (eexists; reflexivity).
  assert ("invoice:ORD-1001" ≠ "my-task") as Hne by discriminate.
  destruct (other_keys_untouched "my-task" "invoice:ORD-1001" w Hr Hne)
    as (_ & Hend & _ & Hfire & _).
  split; [apply Hend|].
  apply (Hfire 2%nat {| due := 3000; repeat := None; action := Expire "my-task" |});
    reflexivity.
Defined.

(** ** Promises *)

(** The [forEach] of [clearAllLocks] changes the timer queue and nothing
    else. *)
Lemma clear_lock_timers_only w (m : gmap string lockInfo) :
  map_fold clear_lock_timer w m =
    set_timers (λ _, timers (map_fold clear_lock_timer w m)) w.
Proof.
  apply (map_fold_weak_ind (λ r _, r = set_timers (λ _, timers r) w)).
  - by destruct w.
  - intros k lock m' r _ Hr. unfold clear_lock_timer.
    destruct (timeoutId lock); [|done].
    rewrite Hr at 1. done.
Qed.

Lemma promises_ok_init : promises_ok init.
Proof.
  split; simpl.
  - intros p [v Hp]. by rewrite lookup_empty in Hp.
  - intros t tm p Ht. by rewrite lookup_empty in Ht.
Qed.

Lemma promises_ok_same w w' :
  settled w' = settled w → timers w' = timers w → nextPromise w' = nextPromise w →
  promises_ok w → promises_ok w'.
Proof. intros Hs Ht Hn [H1 H2]. split; rewrite ?Hs, ?Ht, ?Hn; auto. Qed.

(** Taking timers off the queue. *)
Lemma promises_ok_fewer_timers f w :
  (∀ t tm, f (timers w) !! t = Some tm → timers w !! t = Some tm) →
  promises_ok w → promises_ok (set_timers f w).
Proof. intros Hsub [H1 H2]. split; simpl; eauto. Qed.

Lemma promises_ok_add_timer rep cb delay w :
  (∀ p, callback_promise cb = Some p → (p < nextPromise w)%nat) →
  promises_ok w → promises_ok (snd (add_timer rep cb delay w)).
Proof.
  intros Hcb [H1 H2]. split; simpl; [done|].
  intros t tm p Ht Hp. destruct (decide (nextTimer w = t)) as [<-|Hne].
  - rewrite lookup_insert_eq in Ht. injection Ht as <-. auto.
  - rewrite lookup_insert_ne in Ht by done. eauto.
Qed.

Lemma promises_ok_requeue t tm w :
  (∀ p, callback_promise (action tm) = Some p → (p < nextPromise w)%nat) →
  promises_ok w → promises_ok (set_timers (insert t tm) w).
Proof.
  intros Hcb [H1 H2]. split; simpl; [done|].
  intros t' tm' p Ht Hp. destruct (decide (t = t')) as [<-|Hne].
  - rewrite lookup_insert_eq in Ht. injection Ht as <-. auto.
  - rewrite lookup_insert_ne in Ht by done. eauto.
Qed.

Lemma promises_ok_resolve p v w :
  (p < nextPromise w)%nat → promises_ok w → promises_ok (resolve p v w).
Proof.
  intros Hp [H1 H2]. split; simpl; [|done].
  intros q Hq. destruct (settled w !! p) eqn:Hsp; [auto|].
  destruct (decide (p = q)) as [<-|Hne]; [done|].
  rewrite lookup_insert_ne in Hq by done. auto.
Qed.

Lemma promises_ok_new_promise w :
  promises_ok w →
  promises_ok (snd (new_promise w)) ∧
  (fst (new_promise w) < nextPromise (snd (new_promise w)))%nat.
Proof.
  intros [H1 H2]. split; [|simpl; lia].
  split; simpl.
  - intros p Hp. specialize (H1 p Hp). lia.
  - intros t tm p Ht Hp. specialize (H2 t tm p Ht Hp). lia.
Qed.

Lemma promises_ok_start key timeout meta ownerId w :
  promises_ok w →
  promises_ok (snd (start key timeout meta ownerId w)) ∧
  nextPromise (snd (start key timeout meta ownerId w)) = nextPromise w.
Proof.
  intros Hok. destruct (locks w !! key) as [lock|] eqn:Hk.
  { by rewrite (start_held _ _ _ _ _ _ Hk). }
  rewrite (start_free _ _ _ _ _ Hk).
  destruct (0 <? default 0 timeout); (split; [|done]).
  - eapply (promises_ok_same (snd (setTimeout (Expire key) (default 0 timeout) w)));
      [done..|].
    by apply (promises_ok_add_timer false).
  - by eapply (promises_ok_same w).
Qed.

Lemma promises_ok_end key ownerId w : promises_ok w → promises_ok (end_ key ownerId w).
Proof.
  intros Hok. unfold end_. destruct (locks w !! key) as [lock|]; [|done].
  destruct (_ && _).
  - by eapply (promises_ok_same w).
  - destruct (timeoutId lock) as [t|].
    + eapply (promises_ok_same (clearTimeout t w)); [done..|].
      apply promises_ok_fewer_timers; [|done].
      intros t' tm Ht. by apply lookup_delete_Some in Ht as [_ Ht].
    + by eapply (promises_ok_same w).
Qed.

Lemma promises_ok_clearAllLocks w : promises_ok w → promises_ok (clearAllLocks w).
Proof.
  intros Hok. unfold clearAllLocks.
  destruct (clear_lock_timers_spec w (locks w)) as (_ & _ & Hsub & _).
  rewrite clear_lock_timers_only.
  eapply (promises_ok_same (set_timers _ w)); [done..|].
  by apply promises_ok_fewer_timers.
Qed.

Lemma promises_ok_retry_loop f w :
  (rf_promise f < nextPromise w)%nat →
  promises_ok w → promises_ok (retry_loop f w).
Proof.
  intros Hp Hok. unfold retry_loop. destruct (rf_i f <? rf_attempts f).
  - destruct (promises_ok_start (rf_key f) (Some (rf_timeout f)) (Some (rf_meta f))
                (rf_ownerId f) w Hok) as [Hs Hn].
    destruct (start _ _ _ _ w) as [ok w']. simpl in Hs, Hn. destruct ok.
    + apply promises_ok_resolve; [lia|done].
    + apply (promises_ok_add_timer false).
      * simpl. intros p [= <-]. lia.
      * by eapply (promises_ok_same w').
  - apply promises_ok_resolve; [done|]. by eapply (promises_ok_same w).
Qed.

Lemma promises_ok_retryStart key attempts initialDelay timeout meta ownerId w :
  promises_ok w →
  promises_ok (snd (retryStart key attempts initialDelay timeout meta ownerId w)).
Proof.
  intros Hok. unfold retryStart.
  destruct (promises_ok_new_promise w Hok) as [Hp Hlt].
  destruct (new_promise w) as [p w']. cbn [fst snd] in *.
  by apply promises_ok_retry_loop.
Qed.

Lemma promises_ok_waitForUnlock key checkInterval w :
  promises_ok w → promises_ok (snd (waitForUnlock key checkInterval w)).
Proof.
  intros Hok. unfold waitForUnlock.
  destruct (promises_ok_new_promise w Hok) as [Hp Hlt].
  destruct (new_promise w) as [p w']. cbn [fst snd] in *.
  destruct (negb _); cbn [snd].
  - by apply promises_ok_resolve.
  - apply (promises_ok_add_timer true); [|done]. simpl. by intros q [= <-].
Qed.

Lemma promises_ok_fire w : promises_ok w → promises_ok (fire w).
Proof.
  intros Hok. unfold fire.
  destruct (next_timer (timers w)) as [[t tm]|] eqn:Hn; [|done].
  pose proof (next_timer_Some _ _ _ Hn) as Hin.
  pose proof (λ p, ok_waiting _ Hok t tm p Hin) as Hp.
  set (w1 := set_now (Z.max (now w) (due tm)) w).
  assert (promises_ok w1) as Hok1 by (by eapply (promises_ok_same w)).
  set (w2 := match repeat tm with
             | Some d => set_timers (insert t {| due := now w1 + d; repeat := Some d;
                                                 action := action tm |}) w1
             | None => set_timers (delete t) w1
             end).
  assert (promises_ok w2 ∧ nextPromise w2 = nextPromise w) as [Hok2 Hn2].
  { subst w2. destruct (repeat tm); (split; [|done]).
    - apply promises_ok_requeue; [|done]. simpl. apply Hp.
    - apply promises_ok_fewer_timers; [|done].
      intros t' tm' Ht. by apply lookup_delete_Some in Ht as [_ Ht]. }
  destruct (action tm) as [key|f|key p]; simpl.
  - eapply (promises_ok_same (set_locks (delete key) w2)); [done..|].
    by eapply (promises_ok_same w2).
  - apply promises_ok_retry_loop; [|done]. simpl. rewrite Hn2. by apply Hp.
  - unfold poll. destruct (negb _); [|done].
    apply promises_ok_resolve.
    + simpl. rewrite Hn2. by apply Hp.
    + apply promises_ok_fewer_timers; [|done].
      intros t' tm' Ht. by apply lookup_delete_Some in Ht as [_ Ht].
Qed.

Lemma promises_ok_exec o w : promises_ok w → promises_ok (exec o w).
Proof.
  intros Hok. destruct o; simpl.
  - by apply promises_ok_start.
  - by apply promises_ok_end.
  - by apply promises_ok_end.
  - by apply promises_ok_clearAllLocks.
  - by apply promises_ok_retryStart.
  - by apply promises_ok_waitForUnlock.
  - by apply promises_ok_fire.
  - by eapply (promises_ok_same w).
Qed.

Lemma reachable_promises_ok w : reachable w → promises_ok w.
Proof.
  intros [ops ->]. generalize promises_ok_init. generalize init.
  induction ops as [|o ops IH]; intros w Hok; [done|].
  simpl. by apply IH, promises_ok_exec.
Qed.

Lemma reachable_fresh_promise w : reachable w → settled w !! nextPromise w = None.
Proof.
  intros Hr. apply eq_None_not_Some. intros Hs.
  apply (ok_settled _ (reachable_promises_ok _ Hr)) in Hs. lia.
Qed.

(** ** Waiting for a release *)

(** X8: [waitForUnlock] on a key that is not locked resolves its promise
    before it returns; it queues no timer and leaves registry and console
    alone. *)
Theorem waitForUnlock_unlocked key checkInterval w :
  reachable w →
  locks w !! key = None →
  fst (waitForUnlock key checkInterval w) = nextPromise w ∧
  settled (snd (waitForUnlock key checkInterval w)) !! nextPromise w = Some PUnit ∧
  timers (snd (waitForUnlock key checkInterval w)) = timers w ∧
  locks (snd (waitForUnlock key checkInterval w)) = locks w ∧
  console (snd (waitForUnlock key checkInterval w)) = console w.
Proof.
  intros Hr Hk. pose proof (reachable_fresh_promise _ Hr) as Hfresh.
  unfold waitForUnlock, new_promise, isLocked. simpl.
  rewrite Hk. rewrite (bool_decide_eq_false_2 (is_Some None)) by (by intros [? ?]).
  simpl. rewrite Hfresh. by rewrite lookup_insert_eq.
Qed.

Lemma waitForUnlock_unlocked_witness :
  let w := run [OpStart "my-task" (Some 3000) None None;
                OpWaitForUnlock "my-task" None;
                OpEnd "my-task" None] init in
  fst (waitForUnlock "my-task" None w) = nextPromise w ∧
  settled (snd (waitForUnlock "my-task" None w)) !! nextPromise w = Some PUnit ∧
  timers (snd (waitForUnlock "my-task" None w)) = timers w ∧
  locks (snd (waitForUnlock "my-task" None w)) = locks w ∧
  console (snd (waitForUnlock "my-task" None w)) = console w.
Proof.
  intros w. apply (waitForUnlock_unlocked "my-task" None w).
  - eexists; reflexivity.
  - reflexivity.
Defined.

(** X9: [waitForUnlock] on a locked key returns a pending promise and
    queues one interval that polls the key, first due one period from now;
    the registry is left alone. *)
Theorem waitForUnlock_locked key checkInterval w lock :
  reachable w →
  locks w !! key = Some lock →
  fst (waitForUnlock key checkInterval w) = nextPromise w ∧
  settled (snd (waitForUnlock key checkInterval w)) !! nextPromise w = None ∧
  timers (snd (waitForUnlock key checkInterval w)) =
    <[nextTimer w := {| due := now w + host_delay (default 100 checkInterval);
                        repeat := Some (host_delay (default 100 checkInterval));
                        action := Poll key (nextPromise w) |}]> (timers w) ∧
  locks (snd (waitForUnlock key checkInterval w)) = locks w ∧
  console (snd (waitForUnlock key checkInterval w)) = console w.
Proof.
  intros Hr Hk. pose proof (reachable_fresh_promise _ Hr) as Hfresh.
  unfold waitForUnlock, new_promise, isLocked. simpl.
  rewrite Hk. by rewrite (bool_decide_eq_true_2 (is_Some (Some lock))) by eauto.
Qed.

Lemma waitForUnlock_locked_witness :
  let w := run [OpStart "my-task" (Some 3000) None None] init in
  fst (waitForUnlock "my-task" (Some 250) w) = nextPromise w ∧
  settled (snd (waitForUnlock "my-task" (Some 250) w)) !! nextPromise w = None ∧
  timers (snd (waitForUnlock "my-task" (Some 250) w)) =
    <[nextTimer w := {| due := now w + host_delay (default 100 (Some 250));
                        repeat := Some (host_delay (default 100 (Some 250)));
                        action := Poll "my-task" (nextPromise w) |}]> (timers w) ∧
  locks (snd (waitForUnlock "my-task" (Some 250) w)) = locks w ∧
  console (snd (waitForUnlock "my-task" (Some 250) w)) = console w.
Proof.
  intros w.
  apply (waitForUnlock_locked "my-task" (Some 250) w
           {| timestamp := 0; meta := []; ownerId := None; timeoutId := Some 1%nat |}).
  - eexists; reflexivity.
  - reflexivity.
Defined.

(** ** Retrying, continued *)

(** X10: [retryStart] with no attempt to make ([attempts] zero or negative)
    never calls [start]: its promise resolves to [false] at once, the
    exhaustion warning is printed, and the key is not taken even when it is
    free. *)
Theorem retryStart_no_attempts key attempts initialDelay timeout meta ownerId w :
  reachable w →
  default 5 attempts ≤ 0 →
  fst (retryStart key attempts initialDelay timeout meta ownerId w) = nextPromise w ∧
  settled (snd (retryStart key attempts initialDelay timeout meta ownerId w))
    !! nextPromise w = Some (PBool false) ∧
  locks (snd (retryStart key attempts initialDelay timeout meta ownerId w)) = locks w ∧
  timers (snd (retryStart key attempts initialDelay timeout meta ownerId w)) = timers w ∧
  console (snd (retryStart key attempts initialDelay timeout meta ownerId w)) =
    console w ++ [(now w, RetryExhausted key (default 5 attempts))].
Proof.
  intros Hr Hle. pose proof (reachable_fresh_promise _ Hr) as Hfresh.
  unfold retryStart, new_promise, retry_loop. cbn [fst snd rf_i rf_attempts].
  assert ((0 <? default 5 attempts) = false) as -> by lia.
  simpl. rewrite Hfresh. by rewrite lookup_insert_eq.
Qed.

Lemma retryStart_no_attempts_witness :
  fst (retryStart "invoice:ORD123" (Some 0) (Some 200) None None None init)
    = nextPromise init ∧
  settled (snd (retryStart "invoice:ORD123" (Some 0) (Some 200) None None None init))
    !! nextPromise init = Some (PBool false) ∧
  locks (snd (retryStart "invoice:ORD123" (Some 0) (Some 200) None None None init))
    = locks init ∧
  timers (snd (retryStart "invoice:ORD123" (Some 0) (Some 200) None None None init))
    = timers init ∧
  console (snd (retryStart "invoice:ORD123" (Some 0) (Some 200) None None None init)) =
    console init ++ [(now init, RetryExhausted "invoice:ORD123" (default 5 (Some 0)))].
Proof.
  apply (retryStart_no_attempts "invoice:ORD123" (Some 0) (Some 200) None None None init).
  - by exists [].
  - simpl. lia.
Defined.

(** X11: [retryStart] on a free key with at least one attempt to make takes
    the lock in the call itself: the promise resolves to [true] with nothing
    printed and no sleep queued, and registry and timer queue are those
    [start] leaves with the same timeout, metadata and owner. *)
Theorem retryStart_free key attempts initialDelay timeout meta ownerId w :
  reachable w →
  locks w !! key = None →
  0 < default 5 attempts →
  settled (snd (retryStart key attempts initialDelay timeout meta ownerId w))
    !! fst (retryStart key attempts initialDelay timeout meta ownerId w)
    = Some (PBool true) ∧
  locks (snd (retryStart key attempts initialDelay timeout meta ownerId w)) =
    locks (snd (start key (Some (default 5000 timeout)) (Some (default [] meta)) ownerId w)) ∧
  timers (snd (retryStart key attempts initialDelay timeout meta ownerId w)) =
    timers (snd (start key (Some (default 5000 timeout)) (Some (default [] meta)) ownerId w)) ∧
  console (snd (retryStart key attempts initialDelay timeout meta ownerId w)) = console w ∧
  isLocked key (snd (retryStart key attempts initialDelay timeout meta ownerId w)) = true.
Proof.
  intros Hr Hk Hpos. pose proof (reachable_fresh_promise _ Hr) as Hfresh.
  unfold retryStart, new_promise, retry_loop. cbn [fst snd rf_i rf_attempts].
  assert ((0 <? default 5 attempts) = true) as -> by lia.
  cbn [rf_key rf_timeout rf_meta rf_ownerId rf_promise].
  rewrite !start_free by done. rewrite isLocked_true.
  destruct (0 <? default 0 (Some (default 5000 timeout))); simpl;
    rewrite Hfresh, !lookup_insert_eq; eauto 10.
Qed.

Lemma retryStart_free_witness :
  let w := run [OpStart "my-task" (Some 3000) None None] init in
  settled (snd (retryStart "invoice:ORD123" (Some 3) (Some 200) (Some 3000) None
                  (Some "worker-7") w))
    !! fst (retryStart "invoice:ORD123" (Some 3) (Some 200) (Some 3000) None
              (Some "worker-7") w)
    = Some (PBool true) ∧
  locks (snd (retryStart "invoice:ORD123" (Some 3) (Some 200) (Some 3000) None
                (Some "worker-7") w)) =
    locks (snd (start "invoice:ORD123" (Some (default 5000 (Some 3000)))
                  (Some (default [] None)) (Some "worker-7") w)) ∧
  timers (snd (retryStart "invoice:ORD123" (Some 3) (Some 200) (Some 3000) None
                 (Some "worker-7") w)) =
    timers (snd (start "invoice:ORD123" (Some (default 5000 (Some 3000)))
                   (Some (default [] None)) (Some "worker-7") w)) ∧
  console (snd (retryStart "invoice:ORD123" (Some 3) (Some 200) (Some 3000) None
                  (Some "worker-7") w)) = console w ∧
  isLocked "invoice:ORD123"
    (snd (retryStart "invoice:ORD123" (Some 3) (Some 200) (Some 3000) None
            (Some "worker-7") w)) = true.
Proof.
  intros w.
  apply (retryStart_free "invoice:ORD123" (Some 3) (Some 200) (Some 3000) None
           (Some "worker-7") w).
  - eexists; reflexivity.
  - reflexivity.
  - simpl. lia.
Defined.

(** ** Waiters and their timers *)

Lemma waiters_ok_init : waiters_ok init.
Proof.
  split; simpl; intros *; rewrite lookup_empty; done.
Qed.

Lemma waiters_ok_same w w' :
  settled w' = settled w → timers w' = timers w →
  waiters_ok w → waiters_ok w'.
Proof. intros Hs Ht [H1 H2 H3 H4]. split; rewrite ?Hs, ?Ht; auto. Qed.

Lemma waiters_ok_fewer_timers f w :
  (∀ t tm, f (timers w) !! t = Some tm → timers w !! t = Some tm) →
  waiters_ok w → waiters_ok (set_timers f w).
Proof. intros Hsub [H1 H2 H3 H4]. split; simpl; eauto. Qed.

Lemma waiters_ok_add_timer rep cb delay w :
  (∀ p, callback_promise cb = Some p → settled w !! p = None ∧ unreferenced p w) →
  (∀ f, cb = RetryResume f → rep = false ∧ rf_i f < rf_attempts f) →
  (∀ key p, cb = Poll key p → rep = true) →
  waiters_ok w → waiters_ok (snd (add_timer rep cb delay w)).
Proof.
  intros Hcb Hsleep Hpoll [H1 H2 H3 H4]. split; simpl.
  - intros t tm p Ht Hp. destruct (decide (nextTimer w = t)) as [<-|Hne].
    + rewrite lookup_insert_eq in Ht. injection Ht as <-. by apply Hcb.
    + rewrite lookup_insert_ne in Ht by done. eauto.
  - intros t t' tm tm' p Ht Ht' Hp Hp'.
    destruct (decide (nextTimer w = t)) as [<-|Hne];
      destruct (decide (nextTimer w = t')) as [<-|Hne']; [done|..].
    + rewrite lookup_insert_eq in Ht. injection Ht as <-.
      rewrite lookup_insert_ne in Ht' by done.
      destruct (Hcb p Hp) as [_ Hun]. by destruct (Hun _ _ Ht').
    + rewrite lookup_insert_eq in Ht'. injection Ht' as <-.
      rewrite lookup_insert_ne in Ht by done.
      destruct (Hcb p Hp') as [_ Hun]. by destruct (Hun _ _ Ht).
    + rewrite lookup_insert_ne in Ht, Ht' by done. eauto.
  - intros t tm f Ht Ha. destruct (decide (nextTimer w = t)) as [<-|Hne].
    + rewrite lookup_insert_eq in Ht. injection Ht as <-. simpl in *.
      destruct (Hsleep f Ha) as [-> ?]. done.
    + rewrite lookup_insert_ne in Ht by done. eauto.
  - intros t tm key p Ht Ha. destruct (decide (nextTimer w = t)) as [<-|Hne].
    + rewrite lookup_insert_eq in Ht. injection Ht as <-. simpl in *.
      rewrite (Hpoll key p Ha). eauto.
    + rewrite lookup_insert_ne in Ht by done. eauto.
Qed.

(** Putting an interval back on the queue under its handle. *)
Lemma waiters_ok_requeue t tm d w :
  timers w !! t = Some tm → is_Some (repeat tm) →
  waiters_ok w →
  waiters_ok (set_timers (insert t {| due := d; repeat := repeat tm;
                                      action := action tm |}) w).
Proof.
  intros Hin Hrep [H1 H2 H3 H4]. split; simpl.
  - intros t' tm' p Ht Hp. destruct (decide (t = t')) as [<-|Hne].
    + rewrite lookup_insert_eq in Ht. injection Ht as <-. eauto.
    + rewrite lookup_insert_ne in Ht by done. eauto.
  - intros t1 t2 tm1 tm2 p Ht1 Ht2 Hp1 Hp2.
    destruct (decide (t = t1)) as [<-|Hne1]; destruct (decide (t = t2)) as [<-|Hne2];
      [done|..].
    + rewrite lookup_insert_eq in Ht1. injection Ht1 as <-.
      rewrite lookup_insert_ne in Ht2 by done. eauto.
    + rewrite lookup_insert_eq in Ht2. injection Ht2 as <-.
      rewrite lookup_insert_ne in Ht1 by done. eauto.
    + rewrite lookup_insert_ne in Ht1, Ht2 by done. eauto.
  - intros t' tm' f Ht Ha. destruct (decide (t = t')) as [<-|Hne].
    + rewrite lookup_insert_eq in Ht. injection Ht as <-. simpl in *. eauto.
    + rewrite lookup_insert_ne in Ht by done. eauto.
  - intros t' tm' key p Ht Ha. destruct (decide (t = t')) as [<-|Hne].
    + rewrite lookup_insert_eq in Ht. by injection Ht as <-.
    + rewrite lookup_insert_ne in Ht by done. eauto.
Qed.

Lemma waiters_ok_resolve p v w :
  unreferenced p w → waiters_ok w → waiters_ok (resolve p v w).
Proof.
  intros Hun [H1 H2 H3 H4]. split; simpl; [|done..].
  intros t tm q Ht Hq. destruct (settled w !! p) eqn:Hsp; [eauto|].
  rewrite lookup_insert_ne; [eauto|]. intros ->. by destruct (Hun _ _ Ht).
Qed.

(** Once its timer is off the queue, nothing waits for the promise of a
    callback. *)
Lemma unreferenced_after_delete t tm p w :
  waiters_ok w → timers w !! t = Some tm → callback_promise (action tm) = Some p →
  unreferenced p (set_timers (delete t) w).
Proof.
  intros Hok Hin Hp t' tm' Ht' Hp'. simpl in Ht'.
  apply lookup_delete_Some in Ht' as [Hne Ht'].
  apply Hne. by apply (ok_one_timer _ Hok t t' tm tm' p).
Qed.

Lemma unreferenced_fresh w :
  promises_ok w → unreferenced (nextPromise w) w.
Proof.
  intros Hok t tm Ht Hp. pose proof (ok_waiting _ Hok _ _ _ Ht Hp). lia.
Qed.

(** [start] leaves the promises alone and adds at most an expiry to the
    queue. *)
Lemma start_footprint key timeout meta ownerId w :
  settled (snd (start key timeout meta ownerId w)) = settled w ∧
  console (snd (start key timeout meta ownerId w)) = console w ∧
  now (snd (start key timeout meta ownerId w)) = now w ∧
  ∀ t tm, timers (snd (start key timeout meta ownerId w)) !! t = Some tm →
          timers w !! t = Some tm ∨ action tm = Expire key.
Proof.
  unfold start. destruct (locks w !! key); [by eauto|].
  destruct (0 <? default 0 timeout); simpl; [|by eauto].
  repeat split. intros t tm Ht.
  destruct (decide (nextTimer w = t)) as [<-|Hne].
  - rewrite lookup_insert_eq in Ht. injection Ht as <-. by right.
  - rewrite lookup_insert_ne in Ht by done. by left.
Qed.

Lemma unreferenced_start key timeout meta ownerId p w :
  unreferenced p w → unreferenced p (snd (start key timeout meta ownerId w)).
Proof.
  intros Hun t tm Ht.
  destruct (start_footprint key timeout meta ownerId w) as (_ & _ & _ & Hfp).
  destruct (Hfp _ _ Ht) as [Hold| ->]; [eauto|done].
Qed.

Lemma waiters_ok_start key timeout meta ownerId w :
  waiters_ok w → waiters_ok (snd (start key timeout meta ownerId w)).
Proof.
  intros Hok. destruct (locks w !! key) as [lock|] eqn:Hk.
  { by rewrite (start_held _ _ _ _ _ _ Hk). }
  rewrite (start_free _ _ _ _ _ Hk). destruct (0 <? default 0 timeout).
  - eapply (waiters_ok_same (snd (setTimeout (Expire key) (default 0 timeout) w)));
      [done..|].
    by apply (waiters_ok_add_timer false).
  - by eapply (waiters_ok_same w).
Qed.

Lemma waiters_ok_end key ownerId w : waiters_ok w → waiters_ok (end_ key ownerId w).
Proof.
  intros Hok. unfold end_. destruct (locks w !! key) as [lock|]; [|done].
  destruct (_ && _).
  - by eapply (waiters_ok_same w).
  - destruct (timeoutId lock) as [t|].
    + eapply (waiters_ok_same (clearTimeout t w)); [done..|].
      apply waiters_ok_fewer_timers; [|done].
      intros t' tm Ht. by apply lookup_delete_Some in Ht as [_ Ht].
    + by eapply (waiters_ok_same w).
Qed.

Lemma waiters_ok_clearAllLocks w : waiters_ok w → waiters_ok (clearAllLocks w).
Proof.
  intros Hok. unfold clearAllLocks.
  destruct (clear_lock_timers_spec w (locks w)) as (_ & _ & Hsub & _).
  rewrite clear_lock_timers_only.
  eapply (waiters_ok_same (set_timers _ w)); [done..|].
  by apply waiters_ok_fewer_timers.
Qed.

Lemma waiters_ok_retry_loop f w :
  settled w !! rf_promise f = None →
  unreferenced (rf_promise f) w →
  waiters_ok w → waiters_ok (retry_loop f w).
Proof.
  intros Hp Hun Hok. unfold retry_loop.
  destruct (rf_i f <? rf_attempts f) eqn:Hlt.
  - pose proof (waiters_ok_start (rf_key f) (Some (rf_timeout f)) (Some (rf_meta f))
                  (rf_ownerId f) w Hok) as Hs.
    pose proof (unreferenced_start (rf_key f) (Some (rf_timeout f)) (Some (rf_meta f))
                  (rf_ownerId f) _ w Hun) as Hun'.
    destruct (start_footprint (rf_key f) (Some (rf_timeout f)) (Some (rf_meta f))
                (rf_ownerId f) w) as (Hset & _).
    destruct (start _ _ _ _ w) as [ok w']. simpl in Hs, Hun', Hset. destruct ok.
    + by apply waiters_ok_resolve.
    + apply (waiters_ok_add_timer false).
      * simpl. intros p [= <-]. split; [by rewrite Hset|done].
      * intros f' [= <-]. split; [done|lia].
      * done.
      * by eapply (waiters_ok_same w').
  - apply waiters_ok_resolve; [done|]. by eapply (waiters_ok_same w).
Qed.

Lemma waiters_ok_retryStart key attempts initialDelay timeout meta ownerId w :
  promises_ok w → waiters_ok w →
  waiters_ok (snd (retryStart key attempts initialDelay timeout meta ownerId w)).
Proof.
  intros Hpr Hok. unfold retryStart, new_promise.
  apply waiters_ok_retry_loop; simpl.
  - apply eq_None_not_Some. intros Hs. apply (ok_settled _ Hpr) in Hs. lia.
  - intros t tm Ht. by apply (unreferenced_fresh w Hpr t tm).
  - by eapply (waiters_ok_same w).
Qed.

Lemma waiters_ok_waitForUnlock key checkInterval w :
  promises_ok w → waiters_ok w →
  waiters_ok (snd (waitForUnlock key checkInterval w)).
Proof.
  intros Hpr Hok. unfold waitForUnlock, new_promise.
  pose proof (unreferenced_fresh w Hpr) as Hun.
  destruct (negb _); cbn [snd].
  - apply waiters_ok_resolve; [exact Hun|]. by eapply (waiters_ok_same w).
  - apply (waiters_ok_add_timer true).
    + simpl. intros p [= <-]. split; [|exact Hun].
      apply eq_None_not_Some. intros Hs. apply (ok_settled _ Hpr) in Hs. lia.
    + done.
    + done.
    + by eapply (waiters_ok_same w).
Qed.

(** The turn in which the sleep of a [retryStart] is over. *)
Lemma fire_sleep w t tm f :
  next_timer (timers w) = Some (t, tm) → action tm = RetryResume f → repeat tm = None →
  fire w = retry_resume f (clearTimeout t (set_now (Z.max (now w) (due tm)) w)).
Proof. intros Hn Ha Hrep. unfold fire. by rewrite Hn, Hrep, Ha. Qed.

(** The turn in which the interval of a [waitForUnlock] comes round. *)
Lemma fire_interval w t tm key p d :
  next_timer (timers w) = Some (t, tm) → action tm = Poll key p → repeat tm = Some d →
  fire w =
    poll key p t
      (set_timers (insert t {| due := Z.max (now w) (due tm) + d; repeat := Some d;
                               action := Poll key p |})
         (set_now (Z.max (now w) (due tm)) w)).
Proof. intros Hn Ha Hrep. unfold fire. by rewrite Hn, Hrep, Ha. Qed.

Lemma waiters_ok_fire w : timers_ok w → waiters_ok w → waiters_ok (fire w).
Proof.
  intros Htm Hok.
  destruct (next_timer (timers w)) as [[t tm]|] eqn:Hn.
  2:{ unfold fire. by rewrite Hn. }
  pose proof (next_timer_Some _ _ _ Hn) as Hin.
  set (w1 := set_now (Z.max (now w) (due tm)) w).
  assert (waiters_ok w1) as Hok1 by (by eapply (waiters_ok_same w)).
  assert (waiters_ok (clearTimeout t w1)) as Hdel.
  { apply waiters_ok_fewer_timers; [|done].
    intros t' tm' Ht. by apply lookup_delete_Some in Ht as [_ Ht]. }
  destruct (action tm) as [key|f|key p] eqn:Ha.
  - destruct (ok_timer _ Htm _ _ _ Hin Ha) as (Hrep & _).
    rewrite (fire_expiry _ _ _ _ Hn Ha Hrep).
    by eapply (waiters_ok_same (clearTimeout t w1)).
  - destruct (ok_sleep _ Hok _ _ _ Hin Ha) as (Hrep & Hlt).
    rewrite (fire_sleep _ _ _ _ Hn Ha Hrep). unfold retry_resume.
    apply waiters_ok_retry_loop; simpl; [| |done].
    + apply (ok_pending _ Hok t tm); [done|by rewrite Ha].
    + apply (unreferenced_after_delete t tm _ w1 Hok1 Hin). by rewrite Ha.
  - destruct (ok_interval _ Hok _ _ _ _ Hin Ha) as [d Hrep].
    rewrite (fire_interval _ _ _ _ _ _ Hn Ha Hrep).
    pose proof (waiters_ok_requeue t tm (Z.max (now w) (due tm) + d) w1 Hin
                  (ex_intro _ d Hrep) Hok1) as Hre.
    rewrite Hrep, Ha in Hre. unfold poll. destruct (negb _); [|done].
    apply waiters_ok_resolve.
    + apply (unreferenced_after_delete t
               {| due := Z.max (now w) (due tm) + d; repeat := Some d;
                  action := Poll key p |} p _ Hre); [|done].
      simpl. apply lookup_insert_eq.
    + apply waiters_ok_fewer_timers; [|done].
      intros t' tm' Ht. by apply lookup_delete_Some in Ht as [_ Ht].
Qed.

Lemma waiters_ok_exec o w :
  timers_ok w → promises_ok w → waiters_ok w → waiters_ok (exec o w).
Proof.
  intros Htm Hpr Hok. destruct o; simpl.
  - by apply waiters_ok_start.
  - by apply waiters_ok_end.
  - by apply waiters_ok_end.
  - by apply waiters_ok_clearAllLocks.
  - by apply waiters_ok_retryStart.
  - by apply waiters_ok_waitForUnlock.
  - by apply waiters_ok_fire.
  - by eapply (waiters_ok_same w).
Qed.

Lemma reachable_waiters_ok w : reachable w → waiters_ok w.
Proof.
  intros [ops ->].
  generalize timers_ok_init promises_ok_init waiters_ok_init. generalize init.
  induction ops as [|o ops IH]; intros w Htm Hpr Hok; [done|].
  simpl. apply IH.
  - by apply timers_ok_exec.
  - by apply promises_ok_exec.
  - by apply waiters_ok_exec.
Qed.

(** X12: every callback that waits to resolve a promise (the sleep of a
    [retryStart], the polling of a [waitForUnlock]) waits for a promise that
    is still pending, and is the only queued timer of that promise: a call
    holds at most one timer, and none once its promise has settled. *)
Theorem waiters_hold_one_timer w t tm p :
  reachable w →
  timers w !! t = Some tm →
  callback_promise (action tm) = Some p →
  settled w !! p = None ∧
  ∀ t' tm', timers w !! t' = Some tm' → callback_promise (action tm') = Some p → t' = t.
Proof.
  intros Hr Ht Hp. pose proof (reachable_waiters_ok _ Hr) as Hok. split.
  - by apply (ok_pending _ Hok t tm).
  - intros t' tm' Ht' Hp'. by apply (ok_one_timer _ Hok t' t tm' tm p).
Qed.

Lemma waiters_hold_one_timer_witness :
  let w := run [OpStart "my-task" None None None;
                OpWaitForUnlock "my-task" (Some 250);
                OpRetryStart "my-task" (Some 3) (Some 100) None None None;
                OpFire] init in
  settled w !! 0%nat = None ∧
  ∀ t' tm', timers w !! t' = Some tm' →
            callback_promise (action tm') = Some 0%nat → t' = 1%nat.
Proof.
  intros w.
  apply (waiters_hold_one_timer w 1%nat
           {| due := 250; repeat := Some 250; action := Poll "my-task" 0%nat |} 0%nat).
  - eexists; reflexivity.
  - reflexivity.
  - reflexivity.
Defined.

(** X13: a turn of the event loop in which the polling interval of a
    [waitForUnlock] fires.  While the key is locked the promises stay as
    they are and the interval is armed again, one period after this turn.
    Once the key is free the promise is resolved and the interval is taken
    off the queue.  Either way the registry is not touched. *)
Theorem fire_poll w t tm key p :
  reachable w →
  next_timer (timers w) = Some (t, tm) →
  action tm = Poll key p →
  locks (fire w) = locks w ∧
  if isLocked key w
  then settled (fire w) = settled w ∧
       ∃ d, repeat tm = Some d ∧
            timers (fire w) =
              <[t := {| due := Z.max (now w) (due tm) + d; repeat := Some d;
                        action := Poll key p |}]> (timers w)
  else settled (fire w) !! p = Some PUnit ∧
       timers (fire w) = delete t (timers w).
Proof.
  intros Hr Hn Ha. pose proof (reachable_waiters_ok _ Hr) as Hok.
  pose proof (next_timer_Some _ _ _ Hn) as Hin.
  destruct (ok_interval _ Hok _ _ _ _ Hin Ha) as [d Hrep].
  assert (settled w !! p = None) as Hp.
  { apply (ok_pending _ Hok t tm); [done|by rewrite Ha]. }
  rewrite (fire_interval _ _ _ _ _ _ Hn Ha Hrep).
  unfold poll, isLocked. simpl. destruct (bool_decide _); simpl.
  - split; [done|]. split; [done|]. by exists d.
  - split; [done|]. rewrite Hp, lookup_insert_eq. split; [done|].
    by rewrite delete_insert_eq.
Qed.

Lemma fire_poll_witness :
  let w := run [OpStart "my-task" None None None;
                OpWaitForUnlock "my-task" (Some 250);
                OpEnd "my-task" None] init in
  locks (fire w) = locks w ∧
  if isLocked "my-task" w
  then settled (fire w) = settled w ∧
       ∃ d, Some 250 = Some d ∧
            timers (fire w) =
              <[1%nat := {| due := Z.max (now w) 250 + d; repeat := Some d;
                            action := Poll "my-task" 0%nat |}]> (timers w)
  else settled (fire w) !! 0%nat = Some PUnit ∧
       timers (fire w) = delete 1%nat (timers w).
Proof.
  intros w.
  apply (fire_poll w 1%nat
           {| due := 250; repeat := Some 250; action := Poll "my-task" 0%nat |}
           "my-task" 0%nat).
  - eexists; reflexivity.
  - reflexivity.
  - reflexivity.
Defined.

(** X14: a retry that wakes up to a free key takes it.  When the sleep of a
    suspended [retryStart] fires, an attempt is left and the key has been
    released meanwhile, the promise resolves to [true], the key is locked
    for the owner and with the metadata the retry was called with, stamped
    with the time of this turn, and nothing is printed. *)
Theorem fire_retry_acquires w t tm f :
  reachable w →
  next_timer (timers w) = Some (t, tm) →
  action tm = RetryResume f →
  rf_i f + 1 < rf_attempts f →
  locks w !! rf_key f = None →
  settled (fire w) !! rf_promise f = Some (PBool true) ∧
  (∃ lock, locks (fire w) !! rf_key f = Some lock ∧
           ownerId lock = rf_ownerId f ∧
           meta lock = rf_meta f ∧
           timestamp lock = Z.max (now w) (due tm)) ∧
  timers (fire w) !! t = None ∧
  console (fire w) = console w.
Proof.
  intros Hr Hn Ha Hi Hk. pose proof (reachable_waiters_ok _ Hr) as Hok.
  pose proof (next_timer_Some _ _ _ Hn) as Hin.
  destruct (ok_sleep _ Hok _ _ _ Hin Ha) as (Hrep & _).
  assert (settled w !! rf_promise f = None) as Hp.
  { apply (ok_pending _ Hok t tm); [done|by rewrite Ha]. }
  assert (nextTimer w ≠ t) as Hne.
  { pose proof (ok_fresh _ (reachable_timers_ok _ Hr) t (ex_intro _ _ Hin)). lia. }
  rewrite (fire_sleep _ _ _ _ Hn Ha Hrep).
  unfold retry_resume, retry_loop. cbn [rf_i rf_attempts].
  assert ((rf_i f + 1 <? rf_attempts f) = true) as -> by lia.
  cbn [rf_key rf_timeout rf_meta rf_ownerId rf_promise].
  rewrite start_free by done.
  destruct (0 <? default 0 (Some (rf_timeout f))); simpl;
    rewrite Hp, !lookup_insert_eq; repeat split; eauto 10.
  - rewrite lookup_insert_ne by done. apply lookup_delete_eq.
  - apply lookup_delete_eq.
Qed.

Lemma fire_retry_acquires_witness :
  let w := run [OpStart "my-task" None None None;
                OpRetryStart "my-task" (Some 3) (Some 100) (Some 3000) None (Some "w2");
                OpEnd "my-task" None] init in
  let f := {| rf_key := "my-task"; rf_attempts := 3; rf_initialDelay := 100;
              rf_timeout := 3000; rf_meta := []; rf_ownerId := Some "w2";
              rf_i := 0; rf_promise := 0%nat |} in
  settled (fire w) !! rf_promise f = Some (PBool true) ∧
  (∃ lock, locks (fire w) !! rf_key f = Some lock ∧
           ownerId lock = rf_ownerId f ∧
           meta lock = rf_meta f ∧
           timestamp lock = Z.max (now w) 100) ∧
  timers (fire w) !! 1%nat = None ∧
  console (fire w) = console w.
Proof.
  intros w f.
  apply (fire_retry_acquires w 1%nat
           {| due := 100; repeat := None; action := RetryResume f |} f).
  - eexists; reflexivity.
  - reflexivity.
  - reflexivity.
  - simpl. lia.
  - reflexivity.
Defined.

(** X15: a retry that wakes up with no attempt left gives up without
    looking at the key.  When the sleep after the last attempt fires, the
    promise resolves to [false], the exhaustion warning is printed, and the
    registry is untouched, also when the key has been released during that
    sleep. *)
Theorem fire_retry_exhausted w t tm f :
  reachable w →
  next_timer (timers w) = Some (t, tm) →
  action tm = RetryResume f →
  rf_attempts f ≤ rf_i f + 1 →
  settled (fire w) !! rf_promise f = Some (PBool false) ∧
  locks (fire w) = locks w ∧
  timers (fire w) = delete t (timers w) ∧
  console (fire w) =
    console w ++ [(Z.max (now w) (due tm), RetryExhausted (rf_key f) (rf_attempts f))].
Proof.
  intros Hr Hn Ha Hi. pose proof (reachable_waiters_ok _ Hr) as Hok.
  pose proof (next_timer_Some _ _ _ Hn) as Hin.
  destruct (ok_sleep _ Hok _ _ _ Hin Ha) as (Hrep & _).
  assert (settled w !! rf_promise f = None) as Hp.
  { apply (ok_pending _ Hok t tm); [done|by rewrite Ha]. }
  rewrite (fire_sleep _ _ _ _ Hn Ha Hrep).
  unfold retry_resume, retry_loop. cbn [rf_i rf_attempts].
  assert ((rf_i f + 1 <? rf_attempts f) = false) as -> by lia.
  simpl. by rewrite Hp, lookup_insert_eq.
Qed.

Lemma fire_retry_exhausted_witness :
  let w := run [OpStart "my-task" None None None;
                OpRetryStart "my-task" (Some 1) (Some 100) None None None;
                OpEnd "my-task" None] init in
  let f := {| rf_key := "my-task"; rf_attempts := 1; rf_initialDelay := 100;
              rf_timeout := 5000; rf_meta := []; rf_ownerId := None;
              rf_i := 0; rf_promise := 0%nat |} in
  isLocked "my-task" w = false ∧
  (settled (fire w) !! rf_promise f = Some (PBool false) ∧
   locks (fire w) = locks w ∧
   timers (fire w) = delete 1%nat (timers w) ∧
   console (fire w) =
     console w ++ [(Z.max (now w) 100, RetryExhausted (rf_key f) (rf_attempts f))]).
Proof.
  intros w f. split; [reflexivity|].
  apply (fire_retry_exhausted w 1%nat
           {| due := 100; repeat := None; action := RetryResume f |} f).
  - eexists; reflexivity.
  - reflexivity.
  - reflexivity.
  - simpl. lia.
Defined.

(** X16: a retry that wakes up to a key still held, with an attempt left,
    fails again and doubles its sleep.  For a delay the host takes as it is
    ([initialDelay >= 1], [i >= 0] and [initialDelay * 2^(i+1)] at most
    2^31-1, so that the product is exact), the attempt is reported with its
    number and the next delay [initialDelay * 2^(i+1)], and one new sleep of
    that length, for the same call, is queued in place of the old one; the
    promise stays pending and the registry is untouched. *)
Theorem fire_retry_backs_off w t tm f lock :
  reachable w →
  next_timer (timers w) = Some (t, tm) →
  action tm = RetryResume f →
  rf_i f + 1 < rf_attempts f →
  locks w !! rf_key f = Some lock →
  0 ≤ rf_i f →
  1 ≤ rf_initialDelay f →
  rf_initialDelay f * 2 ^ (rf_i f + 1) ≤ TIMEOUT_MAX →
  settled (fire w) = settled w ∧
  locks (fire w) = locks w ∧
  console (fire w) =
    console w ++ [(Z.max (now w) (due tm),
                   AttemptFailed (rf_key f) (rf_i f + 2)
                     (rf_initialDelay f * 2 ^ (rf_i f + 1)))] ∧
  ∃ f', rf_i f' = rf_i f + 1 ∧ rf_promise f' = rf_promise f ∧
        rf_key f' = rf_key f ∧ rf_attempts f' = rf_attempts f ∧
        rf_initialDelay f' = rf_initialDelay f ∧ rf_timeout f' = rf_timeout f ∧
        rf_meta f' = rf_meta f ∧ rf_ownerId f' = rf_ownerId f ∧
        timers (fire w) =
          <[nextTimer w :=
              {| due := Z.max (now w) (due tm)
                        + rf_initialDelay f * 2 ^ (rf_i f + 1);
                 repeat := None; action := RetryResume f' |}]>
            (delete t (timers w)).
Proof.
  intros Hr Hn Ha Hi Hk Hi0 Hd Hmax. pose proof (reachable_waiters_ok _ Hr) as Hok.
  pose proof (next_timer_Some _ _ _ Hn) as Hin.
  destruct (ok_sleep _ Hok _ _ _ Hin Ha) as (Hrep & _).
  assert (0 < 2 ^ (rf_i f + 1)) as Hpow by (apply Z.pow_pos_nonneg; lia).
  assert (host_delay (rf_initialDelay f * 2 ^ (rf_i f + 1))
          = rf_initialDelay f * 2 ^ (rf_i f + 1)) as Hhost.
  { unfold host_delay.
    destruct (_ <? 1) eqn:Hlo; [apply Z.ltb_lt in Hlo; nia|].
    destruct (TIMEOUT_MAX <? _) eqn:Hhi; [apply Z.ltb_lt in Hhi; lia|]. done. }
  rewrite (fire_sleep _ _ _ _ Hn Ha Hrep).
  unfold retry_resume, retry_loop. cbn [rf_i rf_attempts].
  assert ((rf_i f + 1 <? rf_attempts f) = true) as -> by lia.
  cbn [rf_key rf_timeout rf_meta rf_ownerId rf_promise rf_initialDelay].
  rewrite (start_held _ _ _ _ _ lock) by done.
  unfold setTimeout, add_timer. cbn [snd]. rewrite Hhost. simpl.
  replace (rf_i f + 1 + 1) with (rf_i f + 2) by lia.
  repeat split. eexists. repeat (split; [|try reflexivity]); done.
Qed.

Lemma fire_retry_backs_off_witness :
  let w := run [OpStart "my-task" None None None;
                OpRetryStart "my-task" (Some 3) (Some 100) None None None] init in
  let f := {| rf_key := "my-task"; rf_attempts := 3; rf_initialDelay := 100;
              rf_timeout := 5000; rf_meta := []; rf_ownerId := None;
              rf_i := 0; rf_promise := 0%nat |} in
  settled (fire w) = settled w ∧
  locks (fire w) = locks w ∧
  console (fire w) =
    console w ++ [(Z.max (now w) 100,
                   AttemptFailed (rf_key f) (rf_i f + 2)
                     (rf_initialDelay f * 2 ^ (rf_i f + 1)))] ∧
  ∃ f', rf_i f' = rf_i f + 1 ∧ rf_promise f' = rf_promise f ∧
        rf_key f' = rf_key f ∧ rf_attempts f' = rf_attempts f ∧
        rf_initialDelay f' = rf_initialDelay f ∧ rf_timeout f' = rf_timeout f ∧
        rf_meta f' = rf_meta f ∧ rf_ownerId f' = rf_ownerId f ∧
        timers (fire w) =
          <[nextTimer w :=
              {| due := Z.max (now w) 100
                        + rf_initialDelay f * 2 ^ (rf_i f + 1);
                 repeat := None; action := RetryResume f' |}]>
            (delete 1%nat (timers w)).
Proof.
  intros w f.
  apply (fire_retry_backs_off w 1%nat
           {| due := 100; repeat := None; action := RetryResume f |} f
           {| timestamp := 0; meta := []; ownerId := None; timeoutId := None |}).
  - eexists; reflexivity.
  - reflexivity.
  - reflexivity.
  - simpl. lia.
  - reflexivity.
  - simpl. lia.
  - simpl. lia.
  - vm_compute. discriminate.
Defined.

(** ** The backoff schedule *)

Lemma next_timer_singleton t tm : next_timer {[t := tm]} = Some (t, tm).
Proof. unfold next_timer. by rewrite map_to_list_singleton. Qed.

Lemma host_delay_in_range d : 1 ≤ d → d ≤ TIMEOUT_MAX → host_delay d = d.
Proof.
  intros H1 H2. unfold host_delay.
  destruct (d <? 1) eqn:Ha; [lia|]. destruct (TIMEOUT_MAX <? d) eqn:Hb; [lia|]. done.
Qed.

Lemma backoff_in_range d j n :
  1 ≤ d → 0 ≤ j → j ≤ n - 1 → d * 2 ^ (n - 1) ≤ TIMEOUT_MAX →
  1 ≤ d * 2 ^ j ∧ d * 2 ^ j ≤ TIMEOUT_MAX.
Proof.
  intros Hd Hj Hjn Hmax.
  assert (0 < 2 ^ j) by (apply Z.pow_pos_nonneg; lia).
  assert (2 ^ j ≤ 2 ^ (n - 1)) by (apply Z.pow_le_mono_r; lia).
  split; nia.
Qed.

Lemma fire_sleep_exhausted w t tm f :
  next_timer (timers w) = Some (t, tm) → action tm = RetryResume f → repeat tm = None →
  rf_attempts f ≤ rf_i f + 1 →
  fire w =
    resolve (rf_promise f) (PBool false)
      (emit (RetryExhausted (rf_key f) (rf_attempts f))
         (clearTimeout t (set_now (Z.max (now w) (due tm)) w))).
Proof.
  intros Hn Ha Hrep Hi. rewrite (fire_sleep _ _ _ _ Hn Ha Hrep).
  unfold retry_resume, retry_loop. cbn [rf_i rf_attempts].
  by assert ((rf_i f + 1 <? rf_attempts f) = false) as -> by lia.
Qed.

Lemma fire_sleep_held w t tm f lock :
  next_timer (timers w) = Some (t, tm) → action tm = RetryResume f → repeat tm = None →
  rf_i f + 1 < rf_attempts f →
  locks w !! rf_key f = Some lock →
  fire w =
    snd (setTimeout
           (RetryResume
              {| rf_key := rf_key f; rf_attempts := rf_attempts f;
                 rf_initialDelay := rf_initialDelay f; rf_timeout := rf_timeout f;
                 rf_meta := rf_meta f; rf_ownerId := rf_ownerId f;
                 rf_i := rf_i f + 1; rf_promise := rf_promise f |})
           (rf_initialDelay f * 2 ^ (rf_i f + 1))
           (emit (AttemptFailed (rf_key f) (rf_i f + 1 + 1)
                    (rf_initialDelay f * 2 ^ (rf_i f + 1)))
              (clearTimeout t (set_now (Z.max (now w) (due tm)) w)))).
Proof.
  intros Hn Ha Hrep Hi Hk. rewrite (fire_sleep _ _ _ _ Hn Ha Hrep).
  unfold retry_resume, retry_loop. cbn [rf_i rf_attempts].
  assert ((rf_i f + 1 <? rf_attempts f) = true) as -> by lia.
  cbn [rf_key rf_timeout rf_meta rf_ownerId rf_promise rf_initialDelay].
  by rewrite (start_held _ _ _ _ _ lock).
Qed.

(** The call of [retryStart] itself, on a held key with an attempt to make:
    the first attempt fails and the call goes to sleep. *)
Lemma retryStart_held key attempts initialDelay timeout meta ownerId w lock :
  locks w !! key = Some lock →
  0 < default 5 attempts →
  snd (retryStart key attempts initialDelay timeout meta ownerId w) =
    snd (setTimeout
           (RetryResume
              {| rf_key := key; rf_attempts := default 5 attempts;
                 rf_initialDelay := default 100 initialDelay;
                 rf_timeout := default 5000 timeout; rf_meta := default [] meta;
                 rf_ownerId := ownerId; rf_i := 0; rf_promise := nextPromise w |})
           (default 100 initialDelay * 2 ^ 0)
           (emit (AttemptFailed key (0 + 1) (default 100 initialDelay * 2 ^ 0))
              (snd (new_promise w)))).
Proof.
  intros Hk Hpos. unfold retryStart, new_promise, retry_loop.
  cbn [fst snd rf_i rf_attempts].
  assert ((0 <? default 5 attempts) = true) as -> by (apply Z.ltb_lt; lia).
  cbn [rf_key rf_timeout rf_meta rf_ownerId rf_promise rf_initialDelay].
  by rewrite (start_held _ _ _ _ _ lock).
Qed.

(** A [retryStart] asleep after failed attempt [i], alone on the queue, with
    [m] attempts to go on a key that stays held. *)
Lemma retry_sleeping_run (m : nat) : ∀ w t tm f (i : nat) t0 lock,
  reachable w →
  timers w = {[t := tm]} →
  action tm = RetryResume f →
  rf_i f = Z.of_nat i →
  rf_attempts f = Z.of_nat (S i + m) →
  1 ≤ rf_initialDelay f →
  rf_initialDelay f * 2 ^ (rf_attempts f - 1) ≤ TIMEOUT_MAX →
  due tm = t0 + rf_initialDelay f * (2 ^ Z.of_nat (S i) - 1) →
  now w ≤ due tm →
  locks w !! rf_key f = Some lock →
  settled (run (replicate (S m) OpFire) w) !! rf_promise f = Some (PBool false) ∧
  now (run (replicate (S m) OpFire) w)
    = t0 + rf_initialDelay f * (2 ^ rf_attempts f - 1) ∧
  console (run (replicate (S m) OpFire) w) =
    console w ++ map (attempt_line (rf_key f) t0 (rf_initialDelay f)) (seq (S i) m)
      ++ [(t0 + rf_initialDelay f * (2 ^ rf_attempts f - 1),
           RetryExhausted (rf_key f) (rf_attempts f))] ∧
  locks (run (replicate (S m) OpFire) w) = locks w ∧
  timers (run (replicate (S m) OpFire) w) = ∅.
Proof.
  induction m as [|m IH];
    intros w t tm f i t0 lock Hr Htm Ha Hi Hatt Hd Hmax Hdue Hnow Hk.
  - assert (next_timer (timers w) = Some (t, tm)) as Hn
      by (rewrite Htm; apply next_timer_singleton).
    pose proof (next_timer_Some _ _ _ Hn) as Hin.
    pose proof (reachable_waiters_ok _ Hr) as Hok.
    destruct (ok_sleep _ Hok _ _ _ Hin Ha) as (Hrep & _).
    assert (settled w !! rf_promise f = None) as Hp.
    { apply (ok_pending _ Hok t tm); [done|by rewrite Ha]. }
    assert (rf_attempts f = Z.of_nat (S i)) as Hatt' by (rewrite Hatt; f_equal; lia).
    cbn [replicate run foldl exec].
    rewrite (fire_sleep_exhausted _ _ _ _ Hn Ha Hrep) by lia. simpl.
    rewrite Hp, lookup_insert_eq, Htm, delete_singleton_eq, Z.max_r by done.
    rewrite Hdue, Hatt'. done.
  - assert (next_timer (timers w) = Some (t, tm)) as Hn
      by (rewrite Htm; apply next_timer_singleton).
    pose proof (next_timer_Some _ _ _ Hn) as Hin.
    pose proof (reachable_waiters_ok _ Hr) as Hok.
    destruct (ok_sleep _ Hok _ _ _ Hin Ha) as (Hrep & _).
    assert (rf_i f + 1 < rf_attempts f) as Hlt by lia.
    destruct (backoff_in_range (rf_initialDelay f) (rf_i f + 1) (rf_attempts f))
      as [Hlo Hhi]; [lia..|done|].
    pose proof (reachable_exec OpFire w Hr) as Hr'.
    change (run (replicate (S (S m)) OpFire) w)
      with (run (replicate (S m) OpFire) (fire w)).
    simpl in Hr'. revert Hr'.
    rewrite (fire_sleep_held _ _ _ _ lock Hn Ha Hrep Hlt Hk).
    set (f' := {| rf_key := rf_key f; rf_attempts := rf_attempts f;
                  rf_initialDelay := rf_initialDelay f; rf_timeout := rf_timeout f;
                  rf_meta := rf_meta f; rf_ownerId := rf_ownerId f;
                  rf_i := rf_i f + 1; rf_promise := rf_promise f |}).
    set (w1 := snd (setTimeout (RetryResume f') _ _)). intros Hr'.
    assert (2 ^ Z.of_nat (S (S i)) = 2 * 2 ^ Z.of_nat (S i)) as Hpow.
    { rewrite (Nat2Z.inj_succ (S i)). apply Z.pow_succ_r. lia. }
    assert (rf_i f + 1 = Z.of_nat (S i)) as Hi' by lia.
    destruct (IH w1 (nextTimer w)
                {| due := Z.max (now w) (due tm)
                          + host_delay (rf_initialDelay f * 2 ^ (rf_i f + 1));
                   repeat := None; action := RetryResume f' |}
                f' (S i) t0 lock) as (H1 & H2 & H3 & H4 & H5).
    + done.
    + subst w1. simpl. by rewrite Htm, delete_singleton_eq, insert_empty.
    + done.
    + done.
    + simpl. rewrite Hatt. f_equal. lia.
    + done.
    + done.
    + simpl. rewrite Z.max_r by done.
      rewrite host_delay_in_range by done. rewrite Hdue, Hi', Hpow. lia.
    + subst w1. simpl. rewrite host_delay_in_range by done. lia.
    + done.
    + split; [done|]. split; [done|]. split; [|done].
      rewrite H3. subst w1. simpl. rewrite <- !app_assoc. f_equal. simpl. f_equal.
      unfold attempt_line. rewrite Z.max_r by done. rewrite Hdue, Hi'.
      f_equal.
Qed.

(** X17: the whole schedule of [retryStart] on a key that stays held, with
    nothing else on the timer queue and delays the host takes as they are.
    With [n >= 1] attempts and first delay [d], attempt [j] (from 0) is made
    and reported [d * (2^j - 1)] ms after the call, announcing a delay of
    [d * 2^j]; after [n] turns of the event loop, [d * (2^n - 1)] ms after
    the call, the promise resolves to [false] and the exhaustion warning is
    printed.  The registry is untouched and no timer is left behind. *)
Theorem retryStart_held_schedule key (n : nat) d timeout meta ownerId w lock :
  reachable w →
  timers w = ∅ →
  locks w !! key = Some lock →
  (1 ≤ n)%nat →
  1 ≤ d →
  d * 2 ^ (Z.of_nat n - 1) ≤ TIMEOUT_MAX →
  settled (run (replicate n OpFire)
             (snd (retryStart key (Some (Z.of_nat n)) (Some d) timeout meta ownerId w)))
    !! nextPromise w = Some (PBool false) ∧
  now (run (replicate n OpFire)
         (snd (retryStart key (Some (Z.of_nat n)) (Some d) timeout meta ownerId w)))
    = now w + d * (2 ^ Z.of_nat n - 1) ∧
  console (run (replicate n OpFire)
             (snd (retryStart key (Some (Z.of_nat n)) (Some d) timeout meta ownerId w)))
    = console w ++ map (attempt_line key (now w) d) (seq 0 n)
        ++ [(now w + d * (2 ^ Z.of_nat n - 1), RetryExhausted key (Z.of_nat n))] ∧
  locks (run (replicate n OpFire)
           (snd (retryStart key (Some (Z.of_nat n)) (Some d) timeout meta ownerId w)))
    = locks w ∧
  timers (run (replicate n OpFire)
            (snd (retryStart key (Some (Z.of_nat n)) (Some d) timeout meta ownerId w)))
    = ∅.
Proof.
  intros Hr Htm Hk Hn Hd Hmax. destruct n as [|m]; [lia|].
  pose proof (reachable_exec
                (OpRetryStart key (Some (Z.of_nat (S m))) (Some d) timeout meta ownerId)
                w Hr) as Hr'.
  cbn [exec] in Hr'. revert Hr'.
  destruct (backoff_in_range d 0 (Z.of_nat (S m))) as [Hlo Hhi]; [lia..|done|].
  rewrite (retryStart_held _ _ _ _ _ _ _ lock Hk) by (simpl; lia).
  change (default 5 (Some (Z.of_nat (S m)))) with (Z.of_nat (S m)).
  change (default 100 (Some d)) with d.
  set (f := {| rf_key := key; rf_attempts := Z.of_nat (S m); rf_initialDelay := d;
               rf_timeout := default 5000 timeout; rf_meta := default [] meta;
               rf_ownerId := ownerId; rf_i := 0; rf_promise := nextPromise w |}).
  set (w0 := snd (setTimeout (RetryResume f) _ _)). intros Hr'.
  destruct (retry_sleeping_run m w0 (nextTimer w)
              {| due := now w + host_delay (d * 2 ^ 0); repeat := None;
                 action := RetryResume f |}
              f 0%nat (now w) lock) as (H1 & H2 & H3 & H4 & H5).
  - done.
  - subst w0. simpl. by rewrite Htm, insert_empty.
  - done.
  - done.
  - done.
  - done.
  - done.
  - simpl. rewrite host_delay_in_range by done. lia.
  - subst w0. simpl. rewrite host_delay_in_range by done. lia.
  - done.
  - split; [done|]. split; [done|]. split; [|done].
    rewrite H3. subst w0. simpl. rewrite <- !app_assoc. f_equal. simpl. f_equal.
    unfold attempt_line. simpl. f_equal. lia.
Qed.

Lemma retryStart_held_schedule_witness :
  let w := run [OpStart "k" None None None] init in
  settled (run (replicate 3 OpFire)
             (snd (retryStart "k" (Some (Z.of_nat 3)) (Some 100) None None None w)))
    !! nextPromise w = Some (PBool false) ∧
  now (run (replicate 3 OpFire)
         (snd (retryStart "k" (Some (Z.of_nat 3)) (Some 100) None None None w)))
    = now w + 100 * (2 ^ Z.of_nat 3 - 1) ∧
  console (run (replicate 3 OpFire)
             (snd (retryStart "k" (Some (Z.of_nat 3)) (Some 100) None None None w)))
    = console w ++ map (attempt_line "k" (now w) 100) (seq 0 3)
        ++ [(now w + 100 * (2 ^ Z.of_nat 3 - 1), RetryExhausted "k" (Z.of_nat 3))] ∧
  locks (run (replicate 3 OpFire)
           (snd (retryStart "k" (Some (Z.of_nat 3)) (Some 100) None None None w)))
    = locks w ∧
  timers (run (replicate 3 OpFire)
            (snd (retryStart "k" (Some (Z.of_nat 3)) (Some 100) None None None w)))
    = ∅.
Proof.
  intros w.
  apply (retryStart_held_schedule "k" 3 100 None None None w
           {| timestamp := 0; meta := []; ownerId := None; timeoutId := None |}).
  - eexists; reflexivity.
  - reflexivity.
  - reflexivity.
  - lia.
  - lia.
  - vm_compute. discriminate.
Defined.

(** ** Expiry and clearing *)

(** X18: a lock taken with a timeout the host takes as it is, with nothing
    else on the timer queue, is held until the next turn of the event loop
    and released by it: [timeout] ms after the acquisition the registry is
    what it was before [start], the release is reported on the console and
    the queue is empty. *)
Theorem start_then_expires key timeout meta ownerId w :
  timers w = ∅ →
  locks w !! key = None →
  1 ≤ timeout →
  timeout ≤ TIMEOUT_MAX →
  isLocked key (snd (start key (Some timeout) meta ownerId w)) = true ∧
  locks (fire (snd (start key (Some timeout) meta ownerId w))) = locks w ∧
  now (fire (snd (start key (Some timeout) meta ownerId w))) = now w + timeout ∧
  console (fire (snd (start key (Some timeout) meta ownerId w))) =
    console w ++ [(now w + timeout, AutoReleased key)] ∧
  timers (fire (snd (start key (Some timeout) meta ownerId w))) = ∅.
Proof.
  intros Htm Hk Hlo Hhi. rewrite (start_free _ _ _ _ _ Hk). simpl.
  assert ((0 <? timeout) = true) as -> by (apply Z.ltb_lt; lia).
  split; [rewrite isLocked_true; simpl; rewrite lookup_insert_eq; eauto|].
  unfold fire. simpl. rewrite Htm, insert_empty, next_timer_singleton. simpl.
  rewrite (host_delay_in_range timeout) by done.
  rewrite Z.max_r by lia.
  by rewrite delete_insert_id, delete_singleton_eq.
Qed.

Lemma start_then_expires_witness :
  isLocked "my-task" (snd (start "my-task" (Some 3000) None None init)) = true ∧
  locks (fire (snd (start "my-task" (Some 3000) None None init))) = locks init ∧
  now (fire (snd (start "my-task" (Some 3000) None None init))) = now init + 3000 ∧
  console (fire (snd (start "my-task" (Some 3000) None None init))) =
    console init ++ [(now init + 3000, AutoReleased "my-task")] ∧
  timers (fire (snd (start "my-task" (Some 3000) None None init))) = ∅.
Proof.
  apply (start_then_expires "my-task" 3000 None None init).
  - reflexivity.
  - reflexivity.
  - lia.
  - vm_compute. discriminate.
Defined.

(** The [forEach] of [clearAllLocks] leaves on the queue every timer that is
    not the [timeoutId] of a record it visits. *)
Lemma clear_lock_timers_keep w (m : gmap string lockInfo) t :
  (∀ k lock, m !! k = Some lock → timeoutId lock ≠ Some t) →
  timers (map_fold clear_lock_timer w m) !! t = timers w !! t.
Proof.
  apply (map_fold_weak_ind (λ r m,
    (∀ k lock, m !! k = Some lock → timeoutId lock ≠ Some t) →
    timers r !! t = timers w !! t)); clear m.
  - done.
  - intros k lock m r Hfree IH Hno. unfold clear_lock_timer.
    assert (timers r !! t = timers w !! t) as Hr.
    { apply IH. intros k' lock' Hk'. apply (Hno k').
      rewrite lookup_insert_ne; [done|]. intros ->. congruence. }
    pose proof (Hno k lock (lookup_insert_eq _ _ _)) as Hne.
    destruct (timeoutId lock) as [t0|]; [|done]. simpl.
    rewrite lookup_delete_ne; [done|]. congruence.
Qed.

(** X19: [clearAllLocks] empties the registry and cancels the expiry timers,
    and only those: the sleep of every suspended [retryStart] and the
    polling of every [waitForUnlock] stay on the queue as they were, no
    promise is settled, and the warning is printed. *)
Theorem clearAllLocks_spares_waiters w :
  reachable w →
  (∀ key, isLocked key (clearAllLocks w) = false) ∧
  (∀ t tm, timers (clearAllLocks w) !! t = Some tm ↔
           timers w !! t = Some tm ∧ not_expiry (action tm)) ∧
  settled (clearAllLocks w) = settled w ∧
  console (clearAllLocks w) = console w ++ [(now w, AllCleared)].
Proof.
  intros Hr. pose proof (reachable_timers_ok _ Hr) as Hok.
  destruct (clear_lock_timers_spec w (locks w)) as (_ & _ & Hsub & Hgone).
  unfold clearAllLocks. split; [|split; [|split]].
  - intros key. rewrite isLocked_false. simpl. apply lookup_empty.
  - intros t tm. simpl. split.
    + intros Ht. pose proof (Hsub _ _ Ht) as Ht0. split; [done|].
      intros k Ha. destruct (ok_timer _ Hok _ _ _ Ht0 Ha) as (_ & lock & Hk & Hlt).
      rewrite (Hgone _ _ _ Hk Hlt) in Ht. done.
    + intros [Ht Hne]. rewrite clear_lock_timers_keep; [done|].
      intros k lock Hk Hlt. destruct (ok_record _ Hok _ _ _ Hk Hlt) as (tm' & Htm' & Ha).
      rewrite Ht in Htm'. injection Htm' as <-. by destruct (Hne k).
  - rewrite clear_lock_timers_only. done.
  - rewrite clear_lock_timers_only. done.
Qed.

Lemma clearAllLocks_spares_waiters_witness :
  let w := run [OpStart "my-task" (Some 3000) None None;
                OpWaitForUnlock "my-task" (Some 250);
                OpRetryStart "my-task" (Some 3) (Some 100) None None None] init in
  (∀ key, isLocked key (clearAllLocks w) = false) ∧
  (∀ t tm, timers (clearAllLocks w) !! t = Some tm ↔
           timers w !! t = Some tm ∧ not_expiry (action tm)) ∧
  settled (clearAllLocks w) = settled w ∧
  console (clearAllLocks w) = console w ++ [(now w, AllCleared)].
Proof.
  intros w. apply (clearAllLocks_spares_waiters w). eexists; reflexivity.
Defined.

(** ** The timeout of a retried lock *)

Lemma reachable_run ops w : reachable w → reachable (run ops w).
Proof.
  intros [ops0 ->]. exists (ops0 ++ ops). unfold run. by rewrite foldl_app.
Qed.

Lemma start_nextPromise key timeout meta ownerId w :
  nextPromise (snd (start key timeout meta ownerId w)) = nextPromise w.
Proof.
  unfold start. destruct (locks w !! key); [done|].
  by destruct (0 <? default 0 timeout).
Qed.

Lemma end_nextPromise key ownerId w : nextPromise (end_ key ownerId w) = nextPromise w.
Proof.
  unfold end_. destruct (locks w !! key) as [lock|]; [|done].
  destruct (_ && _); [done|]. simpl. by destruct (timeoutId lock).
Qed.

Lemma clearAllLocks_nextPromise w : nextPromise (clearAllLocks w) = nextPromise w.
Proof. unfold clearAllLocks. by rewrite clear_lock_timers_only. Qed.

Lemma retry_loop_nextPromise f w : nextPromise (retry_loop f w) = nextPromise w.
Proof.
  unfold retry_loop. destruct (rf_i f <? rf_attempts f); [|done].
  pose proof (start_nextPromise (rf_key f) (Some (rf_timeout f)) (Some (rf_meta f))
                (rf_ownerId f) w) as Hs.
  destruct (start _ _ _ _ w) as [ok w']. simpl in Hs. by destruct ok.
Qed.

Lemma fire_nextPromise w : nextPromise (fire w) = nextPromise w.
Proof.
  unfold fire. destruct (next_timer (timers w)) as [[t tm]|]; [|done].
  destruct (action tm) as [key|f|key p]; simpl.
  - by destruct (repeat tm).
  - unfold retry_resume. rewrite retry_loop_nextPromise. by destruct (repeat tm).
  - unfold poll. destruct (negb _); simpl; by destruct (repeat tm).
Qed.

(** Promises are only ever handed out. *)
Lemma exec_nextPromise o w : (nextPromise w ≤ nextPromise (exec o w))%nat.
Proof.
  destruct o; cbn [exec].
  - by rewrite start_nextPromise.
  - by rewrite end_nextPromise.
  - unfold forceUnlock. by rewrite end_nextPromise.
  - by rewrite clearAllLocks_nextPromise.
  - unfold retryStart, new_promise. cbn [snd].
    rewrite retry_loop_nextPromise. simpl. lia.
  - unfold waitForUnlock, new_promise. destruct (negb _); simpl; lia.
  - by rewrite fire_nextPromise.
  - done.
Qed.

Lemma call_frames_same p key timeout w w' :
  timers w' = timers w →
  call_frames p key timeout w → call_frames p key timeout w'.
Proof. unfold call_frames. by intros ->. Qed.

Lemma call_frames_fewer p key timeout g w :
  (∀ t tm, g (timers w) !! t = Some tm → timers w !! t = Some tm) →
  call_frames p key timeout w → call_frames p key timeout (set_timers g w).
Proof. intros Hsub Hcf t tm f Ht. apply (Hcf t tm f). by apply Hsub. Qed.

Lemma call_frames_insert p key timeout t tm w :
  (∀ f, action tm = RetryResume f → rf_promise f = p →
        rf_key f = key ∧ rf_timeout f = timeout) →
  call_frames p key timeout w →
  call_frames p key timeout (set_timers (insert t tm) w).
Proof.
  intros Hnew Hcf t' tm' f Ht. simpl in Ht.
  destruct (decide (t = t')) as [<-|Hne].
  - rewrite lookup_insert_eq in Ht. injection Ht as <-. apply Hnew.
  - rewrite lookup_insert_ne in Ht by done. by apply (Hcf t' tm' f).
Qed.

Lemma call_frames_start p key timeout k to m o w :
  call_frames p key timeout w → call_frames p key timeout (snd (start k to m o w)).
Proof.
  intros Hcf t tm f Ht Ha.
  destruct (start_footprint k to m o w) as (_ & _ & _ & Hfp).
  destruct (Hfp _ _ Ht) as [Hold|Hexp]; [by apply (Hcf t tm f)|congruence].
Qed.

Lemma call_frames_end p key timeout k o w :
  call_frames p key timeout w → call_frames p key timeout (end_ k o w).
Proof.
  intros Hcf. unfold end_. destruct (locks w !! k) as [lock|]; [|done].
  destruct (_ && _); [done|]. destruct (timeoutId lock) as [t|]; [|done].
  eapply (call_frames_same _ _ _ (clearTimeout t w)); [done|].
  apply call_frames_fewer; [|done].
  intros t' tm Ht. by apply lookup_delete_Some in Ht as [_ Ht].
Qed.

Lemma call_frames_clearAllLocks p key timeout w :
  call_frames p key timeout w → call_frames p key timeout (clearAllLocks w).
Proof.
  intros Hcf. unfold clearAllLocks.
  destruct (clear_lock_timers_spec w (locks w)) as (_ & _ & Hsub & _).
  intros t tm f Ht. apply (Hcf t tm f). by apply Hsub.
Qed.

Lemma call_frames_retry_loop p key timeout f w :
  (rf_promise f = p → rf_key f = key ∧ rf_timeout f = timeout) →
  call_frames p key timeout w → call_frames p key timeout (retry_loop f w).
Proof.
  intros Hf Hcf. unfold retry_loop. destruct (rf_i f <? rf_attempts f); [|done].
  pose proof (call_frames_start p key timeout (rf_key f) (Some (rf_timeout f))
                (Some (rf_meta f)) (rf_ownerId f) w Hcf) as Hs.
  destruct (start _ _ _ _ w) as [ok w']. simpl in Hs. destruct ok; [done|].
  intros t tm f' Ht. simpl in Ht.
  destruct (decide (nextTimer w' = t)) as [<-|Hne].
  - rewrite lookup_insert_eq in Ht. injection Ht as <-. simpl.
    intros [= <-]. apply Hf.
  - rewrite lookup_insert_ne in Ht by done. by apply (Hs t tm f').
Qed.

Lemma call_frames_fire p key timeout w :
  call_frames p key timeout w → call_frames p key timeout (fire w).
Proof.
  intros Hcf. unfold fire.
  destruct (next_timer (timers w)) as [[t tm]|] eqn:Hn; [|done].
  pose proof (next_timer_Some _ _ _ Hn) as Hin.
  set (w1 := set_now (Z.max (now w) (due tm)) w).
  set (w2 := match repeat tm with
             | Some d => set_timers (insert t {| due := now w1 + d; repeat := Some d;
                                                 action := action tm |}) w1
             | None => set_timers (delete t) w1
             end).
  assert (call_frames p key timeout w2) as Hcf2.
  { subst w2. destruct (repeat tm).
    - apply call_frames_insert; [|done]. simpl. intros f. by apply (Hcf t tm f).
    - apply call_frames_fewer; [|done].
      intros t' tm' Ht. by apply lookup_delete_Some in Ht as [_ Ht]. }
  destruct (action tm) as [k|f|k q] eqn:Ha; simpl.
  - done.
  - unfold retry_resume. apply call_frames_retry_loop; [|done]. simpl.
    by apply (Hcf t tm f).
  - unfold poll. destruct (negb _); [|done].
    intros t' tm' f Ht. simpl in Ht. apply lookup_delete_Some in Ht as [_ Ht].
    by apply (Hcf2 t' tm' f).
Qed.

Lemma call_frames_exec p key timeout o w :
  promises_ok w → (p < nextPromise w)%nat →
  call_frames p key timeout w → call_frames p key timeout (exec o w).
Proof.
  intros Hpr Hp Hcf. destruct o; cbn [exec].
  - by apply call_frames_start.
  - by apply call_frames_end.
  - by apply call_frames_end.
  - by apply call_frames_clearAllLocks.
  - unfold retryStart, new_promise. cbn [snd].
    apply call_frames_retry_loop; [simpl; lia|done].
  - unfold waitForUnlock, new_promise. destruct (negb _); cbn [snd]; [done|].
    intros t tm f Ht. simpl in Ht.
    destruct (decide (nextTimer w = t)) as [<-|Hne].
    + rewrite lookup_insert_eq in Ht. by injection Ht as <-.
    + rewrite lookup_insert_ne in Ht by done. by apply (Hcf t tm f).
  - by apply call_frames_fire.
  - done.
Qed.

Lemma call_frames_run p key timeout ops : ∀ w,
  promises_ok w → (p < nextPromise w)%nat →
  call_frames p key timeout w → call_frames p key timeout (run ops w).
Proof.
  induction ops as [|o ops IH]; intros w Hpr Hp Hcf; [done|].
  simpl. apply IH.
  - by apply promises_ok_exec.
  - pose proof (exec_nextPromise o w). lia.
  - by apply call_frames_exec.
Qed.

(** The sleeps of a call of [retryStart] carry its key and its timeout, the
    default 5000 when none is given. *)
Lemma call_frames_retryStart key attempts initialDelay timeout meta ownerId w :
  promises_ok w →
  call_frames (nextPromise w) key (default 5000 timeout)
    (snd (retryStart key attempts initialDelay timeout meta ownerId w)).
Proof.
  intros Hpr. unfold retryStart, new_promise. cbn [snd].
  apply call_frames_retry_loop; [done|].
  intros t tm f Ht Ha Hp. simpl in Ht.
  pose proof (ok_waiting _ Hpr t tm (rf_promise f) Ht) as Hlt.
  rewrite Ha in Hlt. specialize (Hlt eq_refl). lia.
Qed.

(** C8, as the code has it: [retryStart] called without a timeout uses 5000,
    at whatever attempt it gets the lock.  On a free key with at least one
    attempt the lock is taken in the call, its record holds a fresh timer
    due 5000 ms later, and when that timer runs the lock is released.  On a
    key that is held, whatever happens after the call, a turn in which a
    sleep of this call is over, an attempt is left and the key is free takes
    the lock with a fresh timer due 5000 ms after that turn, which releases
    the lock when it runs. *)
Theorem retryStart_default_timeout key attempts initialDelay meta ownerId w :
  retryStart key attempts initialDelay None meta ownerId w
    = retryStart key attempts initialDelay (Some 5000) meta ownerId w ∧
  (locks w !! key = None →
   0 < default 5 attempts →
   (∃ lock,
      locks (snd (retryStart key attempts initialDelay None meta ownerId w)) !! key
        = Some lock ∧
      timeoutId lock = Some (nextTimer w)) ∧
   timers (snd (retryStart key attempts initialDelay None meta ownerId w)) !! nextTimer w
     = Some {| due := now w + 5000; repeat := None; action := Expire key |} ∧
   isLocked key (snd (retryStart key attempts initialDelay None meta ownerId w)) = true ∧
   isLocked key
     (run_callback (nextTimer w) (Expire key)
        (snd (retryStart key attempts initialDelay None meta ownerId w))) = false) ∧
  (reachable w →
   ∀ ops t tm f,
     next_timer
       (timers (run ops (snd (retryStart key attempts initialDelay None meta ownerId w))))
       = Some (t, tm) →
     action tm = RetryResume f →
     rf_promise f = fst (retryStart key attempts initialDelay None meta ownerId w) →
     rf_i f + 1 < rf_attempts f →
     locks (run ops (snd (retryStart key attempts initialDelay None meta ownerId w)))
       !! key = None →
     settled
       (fire (run ops (snd (retryStart key attempts initialDelay None meta ownerId w))))
       !! fst (retryStart key attempts initialDelay None meta ownerId w)
       = Some (PBool true) ∧
     (∃ lock,
        locks
          (fire (run ops (snd (retryStart key attempts initialDelay None meta ownerId w))))
          !! key = Some lock ∧
        timeoutId lock
          = Some (nextTimer
                    (run ops
                       (snd (retryStart key attempts initialDelay None meta ownerId w))))) ∧
     timers
       (fire (run ops (snd (retryStart key attempts initialDelay None meta ownerId w))))
       !! nextTimer
            (run ops (snd (retryStart key attempts initialDelay None meta ownerId w)))
       = Some {| due := Z.max
                          (now (run ops
                                  (snd (retryStart key attempts initialDelay None meta
                                          ownerId w))))
                          (due tm) + 5000;
                 repeat := None; action := Expire key |} ∧
     isLocked key
       (run_callback
          (nextTimer
             (run ops (snd (retryStart key attempts initialDelay None meta ownerId w))))
          (Expire key)
          (fire (run ops (snd (retryStart key attempts initialDelay None meta ownerId w)))))
       = false).
Proof.
  split; [done|]. split.
  - intros Hk Hpos.
    unfold retryStart, new_promise, retry_loop. cbn [default rf_i rf_attempts].
    assert ((0 <? default 5 attempts) = true) as -> by lia.
    cbn [rf_key rf_timeout rf_meta rf_ownerId rf_promise].
    rewrite start_free by done. simpl.
    rewrite !isLocked_true, !isLocked_false. simpl.
    rewrite !lookup_insert_eq, lookup_delete_eq.
    change (host_delay 5000) with 5000. eauto 10.
  - intros Hr ops t tm f.
    pose proof (reachable_exec
                  (OpRetryStart key attempts initialDelay None meta ownerId) w Hr) as Hr1.
    cbn [exec] in Hr1.
    pose proof (call_frames_retryStart key attempts initialDelay None meta ownerId w
                  (reachable_promises_ok _ Hr)) as Hcf1.
    assert (fst (retryStart key attempts initialDelay None meta ownerId w)
            = nextPromise w) as -> by done.
    assert (nextPromise w
            < nextPromise (snd (retryStart key attempts initialDelay None meta ownerId w)))%nat
      as Hlt.
    { unfold retryStart, new_promise. cbn [snd]. rewrite retry_loop_nextPromise.
      simpl. lia. }
    revert Hr1 Hcf1 Hlt.
    generalize (snd (retryStart key attempts initialDelay None meta ownerId w)).
    intros w1 Hr1 Hcf1 Hlt.
    pose proof (reachable_run ops w1 Hr1) as Hr'.
    pose proof (call_frames_run _ _ _ ops w1 (reachable_promises_ok _ Hr1) Hlt Hcf1)
      as Hcf.
    revert Hr' Hcf. generalize (run ops w1). clear w1 Hr1 Hcf1 Hlt.
    intros w' Hr' Hcf Hn Ha Hp Hi Hk.
    pose proof (next_timer_Some _ _ _ Hn) as Hin.
    pose proof (reachable_waiters_ok _ Hr') as Hok.
    destruct (Hcf t tm f Hin Ha Hp) as [Hkey Hto].
    destruct (ok_sleep _ Hok _ _ _ Hin Ha) as (Hrep & _).
    assert (settled w' !! nextPromise w = None) as Hset.
    { rewrite <- Hp. apply (ok_pending _ Hok t tm); [done|by rewrite Ha]. }
    assert (nextTimer w' ≠ t) as Hne.
    { pose proof (ok_fresh _ (reachable_timers_ok _ Hr') t (ex_intro _ _ Hin)). lia. }
    rewrite (fire_sleep _ _ _ _ Hn Ha Hrep).
    unfold retry_resume, retry_loop. cbn [rf_i rf_attempts].
    assert ((rf_i f + 1 <? rf_attempts f) = true) as -> by lia.
    cbn [rf_key rf_timeout rf_meta rf_ownerId rf_promise].
    rewrite Hkey, Hto, Hp. rewrite start_free by done. simpl.
    rewrite !isLocked_false. simpl.
    rewrite Hset, !lookup_insert_eq, lookup_delete_eq.
    change (host_delay 5000) with 5000. eauto 10.
Qed.

Lemma retryStart_default_timeout_witness :
  let w := run [OpStart "invoice:ORD123" None None None] init in
  let call := retryStart "invoice:ORD123" (Some 3) (Some 200) None None (Some "worker-7") in
  let w' := run [OpEnd "invoice:ORD123" None] (snd (call w)) in
  (isLocked "invoice:ORD123" (snd (call init)) = true ∧
   timers (snd (call init)) !! nextTimer init
     = Some {| due := now init + 5000; repeat := None;
               action := Expire "invoice:ORD123" |}) ∧
  (settled (fire w') !! fst (call w) = Some (PBool true) ∧
   timers (fire w') !! nextTimer w'
     = Some {| due := Z.max (now w') 200 + 5000; repeat := None;
               action := Expire "invoice:ORD123" |} ∧
   isLocked "invoice:ORD123"
     (run_callback (nextTimer w') (Expire "invoice:ORD123") (fire w')) = false).
Proof.
  intros w call w'. split.
  - destruct (retryStart_default_timeout "invoice:ORD123" (Some 3) (Some 200) None
                (Some "worker-7") init) as (_ & Hfirst & _).
    destruct Hfirst as (_ & Htimer & Hlocked & _); [reflexivity|simpl; lia|].
    split; [exact Hlocked|exact Htimer].
  - destruct (retryStart_default_timeout "invoice:ORD123" (Some 3) (Some 200) None
                (Some "worker-7") w) as (_ & _ & Hlater).
    assert (reachable w) as Hr by (eexists; reflexivity).
    destruct (Hlater Hr [OpEnd "invoice:ORD123" None] 1%nat
                {| due := 200; repeat := None;
                   action := RetryResume
                     {| rf_key := "invoice:ORD123"; rf_attempts := 3;
                        rf_initialDelay := 200; rf_timeout := 5000; rf_meta := [];
                        rf_ownerId := Some "worker-7"; rf_i := 0;
                        rf_promise := 0%nat |} |}
                {| rf_key := "invoice:ORD123"; rf_attempts := 3;
                   rf_initialDelay := 200; rf_timeout := 5000; rf_meta := [];
                   rf_ownerId := Some "worker-7"; rf_i := 0; rf_promise := 0%nat |})
      as (Hset & _ & Htimer & Hexp).
    + reflexivity.
    + reflexivity.
    + reflexivity.
    + simpl. lia.
    + reflexivity.
    + split; [exact Hset|]. split; [exact Htimer|exact Hexp].
Defined.

End GlobalLock.
